(* ========================================================================= *)
(* OKVIS2 estimation core: a shallow embedding of                            *)
(*   - okvis_ceres/src/RelativePoseError.cpp        (RelativePoseError)      *)
(*   - okvis_frontend/src/LoopclosureNoncentralAbsoluteAdapter.cpp           *)
(* and proofs of the properties stated for them.                             *)
(*                                                                           *)
(* Scalars ("double") are Stdlib real numbers: the development reasons in    *)
(* exact real arithmetic.  Eigen matrices are MathComp matrices over R; the  *)
(* in-place Eigen algorithms work on index functions nat -> nat -> R, as    *)
(* Eigen's coeff/coeffRef accessors do.                                      *)
(* ========================================================================= *)

From Stdlib Require Import Reals Lra ClassicalEpsilon FunctionalExtensionality String.
From HB Require Import structures.
From mathcomp Require Import boot ssralg matrix.
Set Implicit Arguments.
Unset Strict Implicit.
Unset Printing Implicit Defensive.

Import GRing.Theory.

(* ------------------------------------------------------------------------- *)
(* Real numbers as a MathComp field, so that Eigen matrices of doubles can   *)
(* be MathComp matrices.                                                     *)
(* ------------------------------------------------------------------------- *)

Definition R_eqb (x y : R) : bool := if Req_EM_T x y then true else false.

Lemma R_eqP : Equality.axiom R_eqb.
Proof. move=> x y; rewrite /R_eqb; case: Req_EM_T => H; by constructor. Qed.

HB.instance Definition _ := hasDecEq.Build R R_eqP.

Definition R_find (P : pred R) (_ : nat) : option R :=
  match excluded_middle_informative (exists x, P x) with
  | left H => Some (proj1_sig (constructive_indefinite_description _ H))
  | right _ => None
  end.

Lemma R_find_correct P n x : R_find P n = Some x -> P x.
Proof.
  rewrite /R_find; case: excluded_middle_informative => // H [<-].
  exact: proj2_sig (constructive_indefinite_description _ H).
Qed.

Lemma R_find_complete (P : pred R) : (exists x, P x) -> exists n, R_find P n.
Proof. by move=> H; exists 0%N; rewrite /R_find; case: excluded_middle_informative. Qed.

Lemma R_find_ext (P Q : pred R) : P =1 Q -> R_find P =1 R_find Q.
Proof. by move=> /functional_extensionality E n; rewrite E. Qed.

HB.instance Definition _ := hasChoice.Build R R_find_correct R_find_complete R_find_ext.

Lemma R_addA : associative Rplus. Proof. by move=> *; rewrite Rplus_assoc. Qed.
Lemma R_addC : commutative Rplus. Proof. exact: Rplus_comm. Qed.
Lemma R_add0 : left_id R0 Rplus. Proof. exact: Rplus_0_l. Qed.
Lemma R_addN : left_inverse R0 Ropp Rplus. Proof. exact: Rplus_opp_l. Qed.

HB.instance Definition _ := GRing.isZmodule.Build R R_addA R_addC R_add0 R_addN.

Lemma R_mulA : associative Rmult. Proof. by move=> *; rewrite Rmult_assoc. Qed.
Lemma R_mulC : commutative Rmult. Proof. exact: Rmult_comm. Qed.
Lemma R_mul1 : left_id R1 Rmult. Proof. exact: Rmult_1_l. Qed.
Lemma R_mulDl : left_distributive Rmult Rplus. Proof. by move=> *; rewrite Rmult_plus_distr_r. Qed.
Lemma R_one_neq0 : R1 != R0. Proof. apply/eqP; exact: R1_neq_R0. Qed.

HB.instance Definition _ :=
  GRing.Zmodule_isComNzRing.Build R R_mulA R_mulC R_mul1 R_mulDl R_one_neq0.

Lemma R_mulVf (x : R) : x != R0 -> Rmult (Rinv x) x = R1.
Proof. by move=> /eqP H; exact: Rinv_l. Qed.
Lemma R_inv0 : Rinv R0 = R0. Proof. exact: Rinv_0. Qed.

HB.instance Definition _ := GRing.ComNzRing_isField.Build R R_mulVf R_inv0.

Local Open Scope ring_scope.

(* The ring operations of the instance are Stdlib's, by conversion. *)
Lemma addRE (x y : R) : x + y = Rplus x y. Proof. by []. Qed.
Lemma mulRE (x y : R) : x * y = Rmult x y. Proof. by []. Qed.
Lemma oppRE (x : R) : - x = Ropp x. Proof. by []. Qed.
Lemma subRE (x y : R) : x - y = Rminus x y. Proof. by []. Qed.
Lemma invRE (x : R) : x^-1 = Rinv x. Proof. by []. Qed.
Lemma divRE (x y : R) : x / y = Rdiv x y. Proof. by []. Qed.
Lemma zeroRE : (0 : R) = R0. Proof. by []. Qed.
Lemma oneRE : (1 : R) = R1. Proof. by []. Qed.

Ltac to_R :=
  rewrite ?subRE ?divRE ?addRE ?mulRE ?oppRE ?invRE ?zeroRE ?oneRE;
  repeat match goal with
  | |- context [@GRing.one ?T] => change (@GRing.one T) with R1
  | |- context [@GRing.zero ?T] => change (@GRing.zero T) with R0
  end.

(* ------------------------------------------------------------------------- *)
(* Exceptions and the state/exception monad of the C++ methods.              *)
(* ------------------------------------------------------------------------- *)

(** The exceptions the modelled code can raise: okvis::Exception (thrown by
    OKVIS_ASSERT_TRUE and OKVIS_THROW, with its message) and the
    std::out_of_range of std::map::at. *)
Inductive exn :=
| Exception (msg : string)
| out_of_range.

Inductive outcome (A : Type) :=
| Ret (a : A)
| Throw (e : exn).
Arguments Ret {A} a.
Arguments Throw {A} e.

(** A method on an object of type S: it returns a value or throws, and the
    object state reached at that point is kept. *)
Definition method (S A : Type) := S -> outcome A * S.

Definition mret {S A} (a : A) : method S A := fun s => (Ret a, s).
Definition mthrow {S A} (e : exn) : method S A := fun s => (Throw e, s).
Definition mbind {S A B} (m : method S A) (f : A -> method S B) : method S B :=
  fun s => match m s with
           | (Ret a, s') => f a s'
           | (Throw e, s') => (Throw e, s')
           end.
Definition mmodify {S} (f : S -> S) : method S unit := fun s => (Ret tt, f s).

Notation "x <- m ;; k" := (mbind m (fun x => k))
  (at level 61, m at next level, right associativity).
Notation "m ;; k" := (mbind m (fun _ => k))
  (at level 61, right associativity).

(* ------------------------------------------------------------------------- *)
(* Eigen::LLT (Cholesky, lower storage) and Eigen's matrix inverse.          *)
(* ------------------------------------------------------------------------- *)

Module Eigen.

(** A dense matrix seen through Eigen's coefficient accessors. *)
Definition mat := nat -> nat -> R.

(** The coefficients of a MathComp matrix, 0 outside its bounds. *)
Definition of_mx {n} (A : 'M[R]_n) : mat :=
  fun i j => match (insub i : option 'I_n), (insub j : option 'I_n) with
             | Some i', Some j' => A i' j'
             | _, _ => 0
             end.

(** One iteration k of llt_inplace<Scalar, Lower>::unblocked:
      x = mat(k,k) - A10.squaredNorm();  if (x <= 0) return k;
      mat(k,k) = x = sqrt(x);
      A21 -= A20 * A10.adjoint();  A21 /= x;
    with A10 = row k left of the diagonal, A20 the rows below it and A21 the
    column below the diagonal.  None is the early return. *)
Definition llt_step (n k : nat) (m : mat) : option mat :=
  let x := m k k - \sum_(0 <= p < k) m k p * m k p in
  if Rle_dec x 0 then None
  else
    let s := sqrt x in
    Some (fun i j =>
            if j == k then
              if i == k then s
              else if (k < i) && (i < n) then (m i k - \sum_(0 <= p < k) m i p * m k p) / s
              else m i j
            else m i j).

(** The loop for (k = 0; k < size; ++k) of unblocked, from column k on; the
    result is the matrix and the index returned (None for -1). *)
Fixpoint llt_loop (n k fuel : nat) (m : mat) : mat * option nat :=
  match fuel with
  | 0 => (m, None)
  | fuel'.+1 =>
      match llt_step n k m with
      | None => (m, Some k)
      | Some m' => llt_loop n k.+1 fuel' m'
      end
  end.

Definition llt_unblocked (n : nat) (m : mat) : mat * option nat := llt_loop n 0 n m.

Inductive ComputationInfo := Success | NumericalIssue.

Record LLT (n : nat) := { m_matrix : 'M[R]_n; m_info : ComputationInfo }.

(** LLT::compute: m_matrix = a; inplace_decomposition; m_info = ok ? Success : NumericalIssue.
    For a 6x6 matrix (size < 32) the blocked routine calls unblocked. *)
Definition compute {n} (a : 'M[R]_n) : LLT n :=
  let (m, r) := llt_unblocked n (of_mx a) in
  {| m_matrix := \matrix_(i, j) m i j;
     m_info := if r is Some _ then NumericalIssue else Success |}.

Definition info {n} (l : LLT n) : ComputationInfo := m_info l.

(** LLT::matrixL(): the lower triangular view of m_matrix. *)
Definition matrixL {n} (l : LLT n) : 'M[R]_n :=
  \matrix_(i, j) if (j <= i)%N then m_matrix l i j else 0.

(** MatrixBase::inverse(), as the exact matrix inverse (Eigen computes it
    with a partial-pivoting LU for sizes above 4). *)
Definition inverse {n} (A : 'M[R]_n) : 'M[R]_n := invmx A.

End Eigen.

(* ------------------------------------------------------------------------- *)
(* Eigen quaternions and okvis transformations.                              *)
(* ------------------------------------------------------------------------- *)

Module Kinematics.

(** Eigen::Quaterniond, coefficients stored as (x, y, z, w). *)
Record Quaternion := Quaternion_ { qx : R; qy : R; qz : R; qw : R }.

(** The constructor Quaterniond(w, x, y, z). *)
Definition Quaterniond (w x y z : R) : Quaternion := Quaternion_ x y z w.

Definition squaredNorm (q : Quaternion) : R :=
  qx q * qx q + qy q * qy q + qz q * qz q + qw q * qw q.

Definition qscale (c : R) (q : Quaternion) : Quaternion :=
  Quaternion_ (qx q * c) (qy q * c) (qz q * c) (qw q * c).

(** MatrixBase::normalized on coeffs(): n / sqrt(z) if z > 0, else n. *)
Definition normalized (q : Quaternion) : Quaternion :=
  let z := squaredNorm q in
  if Rlt_dec 0 z then qscale (sqrt z)^-1 q else q.

(** Eigen's quat_product. *)
Definition qmul (a b : Quaternion) : Quaternion :=
  Quaternion_
    (qw a * qx b + qx a * qw b + qy a * qz b - qz a * qy b)
    (qw a * qy b + qy a * qw b + qz a * qx b - qx a * qz b)
    (qw a * qz b + qz a * qw b + qx a * qy b - qy a * qx b)
    (qw a * qw b - qx a * qx b - qy a * qy b - qz a * qz b).

Definition conjugate (q : Quaternion) : Quaternion :=
  Quaternion_ (- qx q) (- qy q) (- qz q) (qw q).

(** QuaternionBase::inverse: conjugate / squaredNorm, or zero. *)
Definition qinverse (q : Quaternion) : Quaternion :=
  let n2 := squaredNorm q in
  if Rlt_dec 0 n2 then qscale n2^-1 (conjugate q) else Quaternion_ 0 0 0 0.

(** The first three coefficients, coeffs().head<3>(). *)
Definition qvec (q : Quaternion) : 'cV[R]_3 :=
  \col_(i < 3) (match nat_of_ord i with 0 => qx q | 1 => qy q | _ => qz q end).

(** QuaternionBase::toRotationMatrix. *)
Definition rot_entry (q : Quaternion) (i j : nat) : R :=
  let tx := 2 * qx q in let ty := 2 * qy q in let tz := 2 * qz q in
  let twx := tx * qw q in let twy := ty * qw q in let twz := tz * qw q in
  let txx := tx * qx q in let txy := ty * qx q in let txz := tz * qx q in
  let tyy := ty * qy q in let tyz := tz * qy q in let tzz := tz * qz q in
  match i, j with
  | 0, 0 => 1 - (tyy + tzz) | 0, 1 => txy - twz       | 0, _ => txz + twy
  | 1, 0 => txy + twz       | 1, 1 => 1 - (txx + tzz) | 1, _ => tyz - twx
  | _, 0 => txz - twy       | _, 1 => tyz + twx       | _, _ => 1 - (txx + tyy)
  end.

Definition toRotationMatrix (q : Quaternion) : 'M[R]_3 := \matrix_(i, j) rot_entry q i j.

(** Modelled from the spec: okvis::kinematics::Transformation (not under
    src/), a pose as a translation r and a unit quaternion q, with
    C() the rotation matrix of q, inverse() = (-(C^T r), q.inverse()) and
    composition (C_1 r_2 + r_1, q_1 q_2). *)
Record Transformation := Transformation_ { r : 'cV[R]_3; q : Quaternion }.

Definition C (T : Transformation) : 'M[R]_3 := toRotationMatrix (q T).

Definition tinverse (T : Transformation) : Transformation :=
  Transformation_ (- ((C T)^T *m r T)) (qinverse (q T)).

Definition tmul (T1 T2 : Transformation) : Transformation :=
  Transformation_ (C T1 *m r T2 + r T1) (qmul (q T1) (q T2)).

Definition Vector3d (x y z : R) : 'cV[R]_3 :=
  \col_(i < 3) (match nat_of_ord i with 0 => x | 1 => y | _ => z end).

End Kinematics.

(* ------------------------------------------------------------------------- *)
(* okvis::ceres::RelativePoseError                                           *)
(* ------------------------------------------------------------------------- *)

Module RelativePoseError.
Import Kinematics.

Record RelativePoseError := RelativePoseError_ {
  T_AB_ : Transformation;
  information_ : 'M[R]_6;
  covariance_ : 'M[R]_6;
  squareRootInformation_ : 'M[R]_6 }.

(** void RelativePoseError::setInformation(const information_t & information) *)
Definition setInformation (information : 'M[R]_6) : method RelativePoseError unit :=
  mmodify (fun s =>
    let information_ := information in
    let covariance_ := Eigen.inverse information in
    let lltOfInformation := Eigen.compute information_ in
    RelativePoseError_ (T_AB_ s) information_ covariance_
                       (Eigen.matrixL lltOfInformation)^T).

(** The members before the constructor body runs (Eigen leaves fixed-size
    matrices uninitialised; every one is assigned by the body). *)
Definition uninit : RelativePoseError :=
  RelativePoseError_ (Transformation_ 0 (Quaterniond 1 0 0 0)) 0 0 0.

Definition construct (body : method RelativePoseError unit) : outcome RelativePoseError :=
  match body uninit with
  | (Ret _, s) => Ret s
  | (Throw e, _) => Throw e
  end.

Definition set_T_AB (T_AB : Transformation) : method RelativePoseError unit :=
  mmodify (fun s => RelativePoseError_ T_AB (information_ s) (covariance_ s)
                                       (squareRootInformation_ s)).

(** RelativePoseError(information, T_AB). *)
Definition make (information : 'M[R]_6) (T_AB : Transformation) : outcome RelativePoseError :=
  construct (set_T_AB T_AB ;; setInformation information).

(** information.setZero(); topLeftCorner<3,3>() = I * 1.0 / translationVariance;
    bottomRightCorner<3,3>() = I * 1.0 / rotationVariance. *)
Definition variance_information (translationVariance rotationVariance : R) : 'M[R]_6 :=
  \matrix_(i, j) if i == j then (if (i < 3)%N then 1 / translationVariance
                                 else 1 / rotationVariance)
                 else 0.

(** RelativePoseError(translationVariance, rotationVariance, T_AB). *)
Definition make_variances (translationVariance rotationVariance : R) (T_AB : Transformation)
  : outcome RelativePoseError :=
  construct (set_T_AB T_AB ;;
             setInformation (variance_information translationVariance rotationVariance)).

(** The pose of parameter block b: position parameters[b][0..2] and the
    normalised quaternion Quaterniond(p[6], p[3], p[4], p[5]). *)
Definition pose_of (parameters : nat -> nat -> R) (b : nat) : Transformation :=
  Transformation_ (Vector3d (parameters b 0%N) (parameters b 1%N) (parameters b 2%N))
    (normalized (Quaterniond (parameters b 6%N) (parameters b 3%N)
                             (parameters b 4%N) (parameters b 5%N))).

(** The error vector of EvaluateWithMinimalJacobians: translation error on
    top, 2 * (T_AB_.q() * T_AB.q().inverse()).coeffs().head<3>() below. *)
Definition error_of (e : RelativePoseError) (parameters : nat -> nat -> R) : 'cV[R]_6 :=
  let T_WA := pose_of parameters 0%N in
  let T_WB := pose_of parameters 1%N in
  let T_AB := tmul (tinverse T_WA) T_WB in
  col_mx (r (T_AB_ e) - r T_AB) (2 *: qvec (qmul (q (T_AB_ e)) (qinverse (q T_AB)))).

(** RelativePoseError::EvaluateWithMinimalJacobians: the return value and the
    residuals written (weighted_error = squareRootInformation_ * error).  The
    Jacobian outputs are not modelled. *)
Definition EvaluateWithMinimalJacobians (e : RelativePoseError) (parameters : nat -> nat -> R)
  : bool * 'cV[R]_6 :=
  (true, squareRootInformation_ e *m error_of e parameters).

Definition Evaluate (e : RelativePoseError) (parameters : nat -> nat -> R) : bool * 'cV[R]_6 :=
  EvaluateWithMinimalJacobians e parameters.

End RelativePoseError.

(** for (size_t i = start; i < start + count; ++i) body(i); a `continue` in
    the body is a body returning normally. *)
Fixpoint for_loop {S} (start count : nat) (body : nat -> method S unit) : method S unit :=
  match count with
  | 0 => mret tt
  | count'.+1 => body start ;; for_loop start.+1 count' body
  end.

(* ------------------------------------------------------------------------- *)
(* opengv::absolute_pose::LoopclosureNoncentralAbsoluteAdapter               *)
(* ------------------------------------------------------------------------- *)

Module Adapter.
Import Kinematics.

(** okvis::cameras::NCameraSystem::DistortionType. *)
Inductive DistortionType := Equidistant | RadialTangential | NoDistortion | RadialTangential8.

Definition DistortionType_eqb (a b : DistortionType) : bool :=
  match a, b with
  | Equidistant, Equidistant | RadialTangential, RadialTangential
  | NoDistortion, NoDistortion | RadialTangential8, RadialTangential8 => true
  | _, _ => false
  end.

(** The camera rig: one distortion type per camera. *)
Record NCameraSystem := NCameraSystem_ { distortionTypes : seq DistortionType }.

Definition numCameras (sys : NCameraSystem) : nat := size (distortionTypes sys).

(** NCameraSystem::distortionType(i).  Indexing past the end, which the
    constructor does for camera 0 of an empty rig, is undefined in the code;
    the default NoDistortion only makes the function total, so what the
    model says about an empty rig does not carry over to the code. *)
Definition distortionType (sys : NCameraSystem) (i : nat) : DistortionType :=
  nth NoDistortion (distortionTypes sys) i.

(** A keypoint of a multiframe: its size (MultiFrame::getKeypointSize), and
    the result of undistorting it (success flag and undistorted ray). *)
Record Keypoint := Keypoint_ {
  keypointSize : R;
  undistortOk : bool;
  ray_x : R;
  ray_y : R }.

(** The data of one camera of a multiframe: the extrinsics T_SC (translation
    and rotation matrix), the focal length of its pinhole geometry and the
    keypoints. *)
Record FrameCamera := FrameCamera_ {
  T_SC_r : 'cV[R]_3;
  T_SC_C : 'M[R]_3;
  focalLengthU : R;
  keypoints : seq Keypoint }.

Record MultiFrame := MultiFrame_ { frameId : nat; frameCameras : seq FrameCamera }.

Definition noCamera : FrameCamera := FrameCamera_ 0 0 1 [::].
Definition noKeypoint : Keypoint := Keypoint_ 0 false 0 0.

(** The frame's camera im.  A camera past the end of the frame, which the
    constructor reaches when the frame has fewer cameras than the rig, is out
    of range in the code; noCamera only makes the function total. *)
Definition camera (f : MultiFrame) (im : nat) : FrameCamera := nth noCamera (frameCameras f) im.
Definition numKeypoints (f : MultiFrame) (im : nat) : nat := size (keypoints (camera f im)).
Definition keypoint (f : MultiFrame) (im k : nat) : Keypoint := nth noKeypoint (keypoints (camera f im)) k.
Definition getKeypointSize (f : MultiFrame) (im k : nat) : R := keypointSize (keypoint f im k).

(** Modelled from the spec: MultiFrame::getBackProjection (the pinhole
    back-projection of okvis_cv, not under src/) -- it back-projects the
    keypoint's pixel location to a viewing direction and reports success;
    the direction is the undistorted ray at unit depth. *)
Definition getBackProjection (f : MultiFrame) (im k : nat) : bool * 'cV[R]_3 :=
  let kp := keypoint f im k in
  (undistortOk kp, Vector3d (ray_x kp) (ray_y kp) 1).

(** okvis::KeypointIdentifier(frameId, cameraIndex, keypointIndex). *)
Definition KeypointIdentifier : Type := (nat * nat * nat)%type.

(** A std::map seen through find/at: the lookup of a key. *)
Definition Points : Type := nat -> option 'cV[R]_4.
Definition Matches : Type := KeypointIdentifier -> option nat.

(** The members of the adapter. *)
Record Adapter := Adapter_ {
  camOffsets_ : seq 'cV[R]_3;
  camRotations_ : seq 'M[R]_3;
  points_ : seq 'cV[R]_3;
  bearingVectors_ : seq 'cV[R]_3;
  sigmaAngles_ : seq R;
  camIndices_ : seq nat;
  keypointIndices_ : seq nat }.

Definition empty : Adapter := Adapter_ [::] [::] [::] [::] [::] [::] [::].

Definition push_camOffset (v : 'cV[R]_3) : method Adapter unit :=
  mmodify (fun a => Adapter_ (rcons (camOffsets_ a) v) (camRotations_ a) (points_ a)
                      (bearingVectors_ a) (sigmaAngles_ a) (camIndices_ a) (keypointIndices_ a)).
Definition push_camRotation (C : 'M[R]_3) : method Adapter unit :=
  mmodify (fun a => Adapter_ (camOffsets_ a) (rcons (camRotations_ a) C) (points_ a)
                      (bearingVectors_ a) (sigmaAngles_ a) (camIndices_ a) (keypointIndices_ a)).
Definition push_point (v : 'cV[R]_3) : method Adapter unit :=
  mmodify (fun a => Adapter_ (camOffsets_ a) (camRotations_ a) (rcons (points_ a) v)
                      (bearingVectors_ a) (sigmaAngles_ a) (camIndices_ a) (keypointIndices_ a)).
Definition push_bearingVector (v : 'cV[R]_3) : method Adapter unit :=
  mmodify (fun a => Adapter_ (camOffsets_ a) (camRotations_ a) (points_ a)
                      (rcons (bearingVectors_ a) v) (sigmaAngles_ a) (camIndices_ a) (keypointIndices_ a)).
Definition push_sigmaAngle (s : R) : method Adapter unit :=
  mmodify (fun a => Adapter_ (camOffsets_ a) (camRotations_ a) (points_ a)
                      (bearingVectors_ a) (rcons (sigmaAngles_ a) s) (camIndices_ a) (keypointIndices_ a)).
Definition push_camIndex (i : nat) : method Adapter unit :=
  mmodify (fun a => Adapter_ (camOffsets_ a) (camRotations_ a) (points_ a)
                      (bearingVectors_ a) (sigmaAngles_ a) (rcons (camIndices_ a) i) (keypointIndices_ a)).
Definition push_keypointIndex (k : nat) : method Adapter unit :=
  mmodify (fun a => Adapter_ (camOffsets_ a) (camRotations_ a) (points_ a)
                      (bearingVectors_ a) (sigmaAngles_ a) (camIndices_ a) (rcons (keypointIndices_ a) k)).

Local Open Scope R_scope.

(** v[i] for a 3- or 4-vector. *)
Definition at3 (v : 'cV[R]_3) (i : nat) : R := v (inord i) ord0.
Definition at4 (v : 'cV[R]_4) (i : nat) : R := v (inord i) ord0.

(** hp.head<3>() / hp[3] *)
Definition dehomogenise (hp : 'cV[R]_4) : 'cV[R]_3 :=
  Vector3d (at4 hp 0 / at4 hp 3) (at4 hp 1 / at4 hp 3) (at4 hp 2 / at4 hp 3).

(** Eigen's normalize(): divide by the norm when the squared norm is positive. *)
Definition normalize (v : 'cV[R]_3) : 'cV[R]_3 :=
  let z := at3 v 0 * at3 v 0 + at3 v 1 * at3 v 1 + at3 v 2 * at3 v 2 in
  if Rlt_dec 0 z then Vector3d (at3 v 0 / sqrt z) (at3 v 1 / sqrt z) (at3 v 2 / sqrt z) else v.

(** sqrt(2) * keypointStdDev * keypointStdDev / (fu * fu), with
    keypointStdDev = 0.8 * keypointStdDev / 12.0 computed before. *)
Definition sigmaAngle (size fu : R) : R :=
  let keypointStdDev := 0.8 * size / 12.0 in
  sqrt 2 * keypointStdDev * keypointStdDev / (fu * fu).

(** The body of the keypoint loop (lines 109-152 of the constructor). *)
Definition keypoint_body (points : Points) (matches : Matches) (frameB : MultiFrame)
    (im : nat) (fu : R) (k : nat) : method Adapter unit :=
  let kid : KeypointIdentifier := (frameId frameB, im, k) in
  match matches kid with
  | None => mret tt
  | Some lmId =>
      if (lmId == 0)%N then mret tt
      else
        match points lmId with
        | None => mthrow out_of_range
        | Some hp =>
            if Rlt_dec (Rabs (at4 hp 3)) 1e-8 then mret tt
            else
              push_point (dehomogenise hp) ;;
              let keypointStdDev := getKeypointSize frameB im k in
              let (ok, direction) := getBackProjection frameB im k in
              let bearing := if ok then direction else Vector3d 1 0 0 in
              push_sigmaAngle (sigmaAngle keypointStdDev fu) ;;
              push_bearingVector (normalize bearing) ;;
              push_camIndex im ;;
              push_keypointIndex k
        end
  end.

(** The focal length fu of camera im, read through the geometry type of the
    rig's distortion type; other distortion types throw. *)
Definition focal_length (distortionType : DistortionType) (frameB : MultiFrame) (im : nat)
  : method Adapter R :=
  match distortionType with
  | RadialTangential | RadialTangential8 | Equidistant => mret (focalLengthU (camera frameB im))
  | _ => mthrow (Exception "Unsupported distortion type"%string)
  end.

(** The body of the camera loop (lines 69-154). *)
Definition camera_body (points : Points) (matches : Matches) (distortionType : DistortionType)
    (frameB : MultiFrame) (im : nat) : method Adapter unit :=
  push_camOffset (T_SC_r (camera frameB im)) ;;
  push_camRotation (T_SC_C (camera frameB im)) ;;
  let numK := numKeypoints frameB im in
  fu <- focal_length distortionType frameB im ;;
  for_loop 0 numK (keypoint_body points matches frameB im fu).

(** The distortion check (lines 63-67). *)
Definition check_distortion (nCameraSystem : NCameraSystem) (dt : DistortionType)
  : method Adapter unit :=
  for_loop 1 (numCameras nCameraSystem - 1) (fun i =>
    if DistortionType_eqb dt (distortionType nCameraSystem i) then mret tt
    else mthrow (Exception "mixed frame types are not supported yet"%string)).

(** The constructor body. *)
Definition ctor_body (points : Points) (matches : Matches) (nCameraSystem : NCameraSystem)
    (frameB : MultiFrame) : method Adapter unit :=
  let numCameras := numCameras nCameraSystem in
  let distortionType := distortionType nCameraSystem 0 in
  check_distortion nCameraSystem distortionType ;;
  for_loop 0 numCameras (camera_body points matches distortionType frameB).

(** LoopclosureNoncentralAbsoluteAdapter(points, matches, nCameraSystem, frameB):
    the constructed adapter, or the exception that escapes the constructor. *)
Definition LoopclosureNoncentralAbsoluteAdapter (points : Points) (matches : Matches)
    (nCameraSystem : NCameraSystem) (frameB : MultiFrame) : outcome Adapter :=
  match ctor_body points matches nCameraSystem frameB empty with
  | (Ret _, a) => Ret a
  | (Throw e, _) => Throw e
  end.

Definition zero3 : 'cV[R]_3 := GRing.zero.
Definition zero33 : 'M[R]_3 := GRing.zero.

(** The accessors; std::vector::operator[] past the end is left
    unconstrained. *)
Definition getBearingVector (a : Adapter) (index : nat) : 'cV[R]_3 := nth zero3 (bearingVectors_ a) index.
Definition getPoint (a : Adapter) (index : nat) : 'cV[R]_3 := nth zero3 (points_ a) index.
Definition getCamOffset (a : Adapter) (index : nat) : 'cV[R]_3 :=
  nth zero3 (camOffsets_ a) (nth 0%N (camIndices_ a) index).
Definition getCamRotation (a : Adapter) (index : nat) : 'M[R]_3 :=
  nth zero33 (camRotations_ a) (nth 0%N (camIndices_ a) index).
Definition getNumberCorrespondences (a : Adapter) : nat := size (points_ a).
Definition getSigmaAngle (a : Adapter) (index : nat) : R := nth 0 (sigmaAngles_ a) index.

End Adapter.

(* ------------------------------------------------------------------------- *)
(* Quadratic forms and the invariant of Eigen's unblocked Cholesky loop.     *)
(* ------------------------------------------------------------------------- *)

(** The quadratic form v^T A v. *)
Definition quad {n} (A : 'M[R]_n) (v : 'cV[R]_n) : R := (v^T *m A *m v) ord0 ord0.

(** The j-th unit column vector. *)
Definition ecol {n} (j : 'I_n) : 'cV[R]_n := delta_mx j ord0.

(** A is positive definite: v^T A v > 0 for every v <> 0. *)
Definition posdef {n} (A : 'M[R]_n) : Prop := forall v : 'cV[R]_n, v != 0 -> Rlt 0 (quad A v).

(** The state m of llt_loop after the columns j < k of A are factored:
    untouched outside those columns' lower part, A i j = sum_(p <= j) m i p m j p
    for them, and positive pivots. *)
Definition Inv {n} (A : 'M[R]_n) (k : nat) (m : Eigen.mat) : Prop :=
  [/\ forall i j, ~ ((j < k)%N /\ (j <= i)%N /\ (i < n)%N) -> m i j = Eigen.of_mx A i j,
      forall i j, (j < k)%N -> (j <= i)%N -> (i < n)%N ->
        Eigen.of_mx A i j = \sum_(0 <= p < j.+1) m i p * m j p
    & forall j, (j < k)%N -> Rlt 0 (m j j)].

(** The Schur complement A - sum_(p < j) col_p col_p^T left after j columns. *)
Definition schur {n} (A : 'M[R]_n) (m : Eigen.mat) (j : nat) : 'M[R]_n :=
  \matrix_(i, l) (A i l - \sum_(0 <= p < j) m i p * m l p).

(** v vanishes on the indices below j. *)
Definition supp {n} (j : nat) (v : 'cV[R]_n) : Prop :=
  forall i : 'I_n, (i < j)%N -> v i ord0 = 0.

(** The lower factor L of A's LLT. *)
Definition L {n} (A : 'M[R]_n) : 'M[R]_n := Eigen.matrixL (Eigen.compute A).

(** The lower triangle of an index function, as a matrix. *)
Definition trig_of (n : nat) (m : Eigen.mat) : 'M[R]_n :=
  \matrix_(i, j) if (j <= i)%N then m i j else 0.

Module AdapterSpec.
Import Kinematics Adapter.
Local Open Scope R_scope.

(** One correspondence as appended by the keypoint loop. *)
Record Entry := Entry_ {
  e_point : 'cV[R]_3;
  e_bearing : 'cV[R]_3;
  e_sigma : R;
  e_cam : nat;
  e_kp : nat }.

Inductive kstatus := Skip | Missing | Accept of 'cV[R]_4.

Definition kp_status (points : Points) (matches : Matches) (frameB : MultiFrame)
    (im k : nat) : kstatus :=
  match matches (frameId frameB, im, k) with
  | None => Skip
  | Some lmId =>
      if (lmId == 0)%N then Skip
      else match points lmId with
           | None => Missing
           | Some hp => if Rlt_dec (Rabs (at4 hp 3)) 1e-8 then Skip else Accept hp
           end
  end.

Definition bearing_of (frameB : MultiFrame) (im k : nat) : 'cV[R]_3 :=
  let (ok, direction) := getBackProjection frameB im k in
  if ok then direction else Vector3d 1 0 0.

Definition entry (frameB : MultiFrame) (im : nat) (fu : R) (k : nat) (hp : 'cV[R]_4) : Entry :=
  Entry_ (dehomogenise hp) (normalize (bearing_of frameB im k))
         (sigmaAngle (getKeypointSize frameB im k) fu) im k.

Fixpoint kp_run points matches frameB im fu (ks : seq nat) : option (seq Entry) :=
  match ks with
  | [::] => Some [::]
  | k :: ks' =>
      match kp_status points matches frameB im k with
      | Skip => kp_run points matches frameB im fu ks'
      | Missing => None
      | Accept hp =>
          match kp_run points matches frameB im fu ks' with
          | Some es => Some (entry frameB im fu k hp :: es)
          | None => None
          end
      end
  end.

Definition cam_run points matches frameB (im : nat) : option (seq Entry) :=
  kp_run points matches frameB im (focalLengthU (camera frameB im))
         (iota 0 (numKeypoints frameB im)).

Fixpoint cams_run points matches frameB (ims : seq nat) : option (seq Entry) :=
  match ims with
  | [::] => Some [::]
  | im :: ims' =>
      match cam_run points matches frameB im, cams_run points matches frameB ims' with
      | Some es, Some es' => Some (es ++ es')
      | _, _ => None
      end
  end.

Definition mkstate (frameB : MultiFrame) (cams : seq nat) (E : seq Entry) : Adapter :=
  Adapter_ (map (fun im => T_SC_r (camera frameB im)) cams)
           (map (fun im => T_SC_C (camera frameB im)) cams)
           (map e_point E) (map e_bearing E) (map e_sigma E) (map e_cam E) (map e_kp E).

Definition supported (dt : DistortionType) : bool :=
  match dt with NoDistortion => false | _ => true end.

Definition single_family (sys : NCameraSystem) : bool :=
  all (fun i => DistortionType_eqb (distortionType sys 0) (distortionType sys i))
      (iota 1 (numCameras sys - 1)).

(** The outcome of the constructor, case by case. *)
Definition ctor_outcome points matches sys frameB : outcome Adapter :=
  if ~~ single_family sys then Throw (Exception "mixed frame types are not supported yet")
  else if (0 < numCameras sys)%N && ~~ supported (distortionType sys 0) then
    Throw (Exception "Unsupported distortion type")
  else match cams_run points matches frameB (iota 0 (numCameras sys)) with
       | Some E => Ret (mkstate frameB (iota 0 (numCameras sys)) E)
       | None => Throw out_of_range
       end.

Definition counted (points : Points) (matches : Matches) (frameB : MultiFrame) (im k : nat) : bool :=
  match matches (frameId frameB, im, k) with
  | None => false
  | Some lmId =>
      (lmId != 0)%N &&
      match points lmId with
      | None => false
      | Some hp => if Rle_dec 1e-8 (Rabs (at4 hp 3)) then true else false
      end
  end.

Definition is_accept (st : kstatus) : bool := if st is Accept _ then true else false.


Definition squaredNorm3 (v : 'cV[R]_3) : R :=
  at3 v 0 * at3 v 0 + at3 v 1 * at3 v 1 + at3 v 2 * at3 v 2.

End AdapterSpec.

Module Examples.
Import Kinematics Adapter AdapterSpec RelativePoseError.
Local Open Scope R_scope.

Definition ex_sys : NCameraSystem := NCameraSystem_ [:: RadialTangential].
Definition ex_sys_mixed : NCameraSystem := NCameraSystem_ [:: RadialTangential; Equidistant].
Definition ex_hp : 'cV[R]_4 := const_mx 1.
Definition ex_points : Points := fun _ => Some ex_hp.
Definition ex_matches : Matches := fun _ => Some 1%N.
Definition ex_frame : MultiFrame :=
  MultiFrame_ 0 [:: FrameCamera_ 0 0 1 [:: Keypoint_ 12 false 0 0]].
Definition ex_adapter : Adapter :=
  mkstate ex_frame [:: 0%N] [:: entry ex_frame 0 1 0 ex_hp].

Definition ex_T_AB : Transformation := Transformation_ 0 (Quaterniond 1 0 0 0).
Definition ex_parameters (b i : nat) : R := if i == 6%N then 1 else 0.
Definition ex_error : RelativePoseError :=
  RelativePoseError_ ex_T_AB 1%:M (Eigen.inverse 1%:M) (Eigen.matrixL (Eigen.compute 1%:M))^T.

End Examples.

Lemma addmxE m p (M N : 'M[R]_(m, p)) i j : (M + N) i j = M i j + N i j.
Proof. by rewrite mxE. Qed.
Lemma scalemxE m p (a : R) (M : 'M[R]_(m, p)) i j : (a *: M) i j = a * M i j.
Proof. by rewrite mxE. Qed.

Ltac ring_R :=
  lazymatch goal with |- @eq _ ?a ?b => change (@eq R a b) | _ => idtac end;
  to_R;
  repeat match goal with
  | |- context [@fun_of_matrix ?T ?a ?b ?M ?i ?j] =>
      let x := fresh "e" in set x := @fun_of_matrix T a b M i j
  | |- context [@bigop.bigop ?T ?I ?z ?r ?F] =>
      let x := fresh "s" in set x := @bigop.bigop T I z r F
  end.
Lemma submxE m p (M N : 'M[R]_(m, p)) i j : (M - N) i j = M i j - N i j.
Proof. by rewrite !mxE. Qed.

Lemma mul11E (X : 'M[R]_1) : (X^T *m X) ord0 ord0 = X ord0 ord0 * X ord0 ord0.
Proof. by rewrite mxE big_ord1 mxE. Qed.

Section Quad.
Variable n : nat.

Lemma quad_delta (A : 'M[R]_n) (j : 'I_n) : quad A (ecol j) = A j j.
Proof. by rewrite /quad /ecol trmx_delta -rowE -colE !mxE. Qed.

Lemma quad_add_delta (A : 'M[R]_n) (y : 'cV[R]_n) (t : R) (j : 'I_n) :
  A^T = A ->
  quad A (y + t *: ecol j) = quad A y + 2%:R * t * (A *m y) j ord0 + t * t * A j j.
Proof.
  move=> Asym.
  have E1 : (y^T *m A *m ecol j) ord0 ord0 = (A *m y) j ord0.
    transitivity ((y^T *m A *m ecol j)^T ord0 ord0); first by rewrite [RHS]mxE.
    by rewrite !trmx_mul trmxK Asym /ecol trmx_delta -rowE !mxE.
  have E2 : ((ecol j)^T *m A *m y) ord0 ord0 = (A *m y) j ord0.
    by rewrite /ecol trmx_delta -mulmxA -rowE !mxE.
  have E3 : ((ecol j)^T *m A *m ecol j) ord0 ord0 = A j j by exact: quad_delta.
  have T : (t *: ecol j)^T = t *: (ecol j)^T by apply/matrixP => a b; rewrite !mxE.
  rewrite /quad [(_ + _)^T]linearD /= T !mulmxDl !mulmxDr -!scalemxAl -!scalemxAr.
  rewrite !addmxE !scalemxE E1 E2 E3 mulr2n.
  ring_R; ring.
Qed.

Lemma quad_sub_outer (A : 'M[R]_n) (u y : 'cV[R]_n) :
  quad (A - u *m u^T) y = quad A y - (u^T *m y) ord0 ord0 * (u^T *m y) ord0 ord0.
Proof.
  rewrite /quad mulmxBr mulmxBl mulmxA.
  have -> : y^T *m u *m u^T *m y = (y^T *m u) *m (u^T *m y) by rewrite mulmxA.
  have -> : (y^T *m u) = (u^T *m y)^T by rewrite trmx_mul trmxK.
  by rewrite submxE mul11E.
Qed.
End Quad.

Lemma of_mx_ord n (A : 'M[R]_n) (i j : 'I_n) : Eigen.of_mx A i j = A i j.
Proof. by rewrite /Eigen.of_mx !valK. Qed.

Lemma sum_sq_ge0 n (P : pred 'I_n) (w : 'cV[R]_n) :
  Rle 0 (\sum_(j | P j) (w^T) ord0 j * w j ord0).
Proof.
  apply: (big_ind (fun x : R => Rle 0 x)).
  - exact: Rle_refl.
  - by move=> x y hx hy; apply: Rplus_le_le_0_compat.
  - by move=> j _; rewrite mxE; apply: Rle_0_sqr.
Qed.

Section Cholesky.
Variable n : nat.
Variable A : 'M[R]_n.
Local Notation mA := (Eigen.of_mx A).
Local Notation Inv := (Inv A).
Local Notation posdef := (posdef A).
Local Notation schur := (schur A).
Local Notation L := (L A).
Local Notation trig_of := (trig_of n).


Lemma Inv0 : Inv 0 mA.
Proof. by split. Qed.

Lemma llt_step_Inv k m m' :
  (k < n)%N -> Inv k m -> Eigen.llt_step n k m = Some m' -> Inv k.+1 m'.
Proof.
  move=> kn [I1 I2 I3]; rewrite /Eigen.llt_step.
  set x := m k k - _.
  case: Rle_dec => // xpos [<-].
  have xgt : Rlt 0 x by apply: Rnot_le_lt.
  have sgt : Rlt 0 (sqrt x) by apply: sqrt_lt_R0.
  have sne : sqrt x <> 0 by apply: Rgt_not_eq.
  have mkk : m k k = mA k k by apply: I1; case; rewrite ltnn.
  split.
  - move=> i j H.
    case: eqP => [jk | jk].
    + subst j; case: eqP => [ik | _].
        by exfalso; apply: H; subst i; split; [exact: ltnSn | split; [exact: leqnn | exact: kn]].
      case: ifP => [/andP [ki ilt] | _].
        by exfalso; apply: H; split; [exact: ltnSn | split; [exact: ltnW | exact: ilt]].
      by apply: I1; case; rewrite ltnn.
    + apply: I1 => -[jlt [ji ilt]]; apply: H; split => //.
      exact: ltnW.
  - move=> i j; rewrite ltnS leq_eqVlt => /orP [/eqP -> | jlt] ji ilt.
    + rewrite big_nat_recr //=.
      under eq_big_nat => p /andP [_ pk] do rewrite (ltn_eqF pk).
      rewrite !(eqxx k).
      case: eqP => [ik | ik].
      * subst i; rewrite -mkk /x; to_R.
        rewrite sqrt_sqrt; first [ring_R; ring | apply: Rlt_le; exact: xgt].
      * have ki : (k < i)%N by rewrite ltn_neqAle ji andbT; apply/eqP => e; apply: ik.
        rewrite ki ilt /=.
        have mik : m i k = mA i k by apply: I1; case; rewrite ltnn.
        rewrite -mik; ring_R; field; exact: sne.
    + have E : forall q, (q <= j)%N -> forall r,
        (if q == k then if r == k then sqrt x
         else if (k < r)%N && (r < n)%N
              then (m r k - \sum_(0 <= p0 < k) m r p0 * m k p0) / sqrt x
              else m r q else m r q) = m r q.
        by move=> q qj r; rewrite (ltn_eqF (leq_ltn_trans qj jlt)).
      rewrite (I2 i j jlt ji ilt).
      apply: eq_big_nat => p /andP [_ pj].
      by rewrite !E // -ltnS.
  - move=> j; rewrite ltnS leq_eqVlt => /orP [/eqP -> | jlt].
    + by rewrite !(eqxx k).
    + by rewrite (ltn_eqF jlt); apply: I3.
Qed.

Lemma llt_loop_Inv k fuel m m' :
  (k + fuel)%N = n -> Inv k m -> Eigen.llt_loop n k fuel m = (m', None) -> Inv n m'.
Proof.
  elim: fuel k m => [|fuel IH] k m /=.
    by rewrite addn0 => kf Hi [<-]; subst k.
  move=> kf Hi; case E: (Eigen.llt_step n k m) => [m1|] // H.
  have kn : (k < n)%N by rewrite -kf addnS ltnS leq_addr.
  apply: (IH k.+1 m1) => //; first by rewrite addSnnS.
  exact: (llt_step_Inv kn Hi E).
Qed.




Lemma nonzero_entry (v : 'cV[R]_n) : v != 0 -> exists i, v i ord0 <> 0.
Proof.
  move=> vn; case: (pickP (fun i => v i ord0 != 0)) => [i /eqP vi | H].
    by exists i.
  exfalso; move/eqP: vn; apply; apply/matrixP => i r.
  by rewrite (ord1 r) mxE; move/negbFE/eqP: (H i).
Qed.

Lemma schur0 m : schur m 0 = A.
Proof. by apply/matrixP => i l; rewrite mxE big_geq // subr0. Qed.

Lemma schur_sym m j : A^T = A -> (schur m j)^T = schur m j.
Proof.
  move=> Asym; apply/matrixP => i l; rewrite !mxE.
  have -> : A l i = A i l by rewrite -[in RHS]Asym mxE.
  by congr (_ - _); apply: eq_bigr => p _; rewrite mulrC.
Qed.

Lemma schur_step m j :
  schur m j.+1 = schur m j - (\col_i m i j) *m (\col_i m i j)^T.
Proof.
  apply/matrixP => i l; rewrite !mxE big_nat_recr //= big_ord1 !mxE.
  ring_R; ring.
Qed.

Lemma ecol_entry (jo i : 'I_n) : ecol jo i ord0 = if (i == jo) then 1 else 0.
Proof. by rewrite /ecol mxE eqxx andbT; case: (i == jo). Qed.

Lemma schur_pd m k :
  A^T = A -> posdef -> Inv k m -> (k <= n)%N ->
  forall j, (j <= k)%N -> forall v, supp j v -> v != 0 -> Rlt 0 (quad (schur m j) v).
Proof.
  move=> Asym PD [I1 I2 I3] kn.
  elim=> [|j IH] jk.
    by move=> v _ vn; rewrite schur0; apply: PD.
  move=> y suppy yn.
  have jn : (j < n)%N by apply: leq_trans kn.
  pose jo := Ordinal jn.
  pose u : 'cV[R]_n := \col_i m i j.
  pose c := (u^T *m y) ord0 ord0.
  have apos : Rlt 0 (m j j) by apply: I3.
  have ane : m j j <> 0 by apply: Rgt_not_eq.
  have Sy : (schur m j *m y) jo ord0 = m j j * c.
    rewrite /c !mxE mulr_sumr; apply: eq_bigr => i _; rewrite !mxE.
    case: (ltnP i j.+1) => [ij | ji].
      by rewrite (suppy i ij); ring_R; ring.
    have := I2 i j (leq_trans (ltnSn j) jk) (ltnW ji) (ltn_ord i).
    change j with (nat_of_ord jo); rewrite of_mx_ord big_nat_recr //= => E.
    have -> : A jo i = A i jo by rewrite -[in LHS]Asym mxE.
    rewrite E.
    have -> : \sum_(0 <= p < jo) m jo p * m i p = \sum_(0 <= p < jo) m i p * m jo p.
      by apply: eq_bigr => p _; rewrite mulrC.
    ring_R; ring.
  have Sjj : schur m j jo jo = m j j * m j j.
    rewrite mxE.
    have := I2 j j (leq_trans (ltnSn j) jk) (leqnn j) jn.
    change j with (nat_of_ord jo); rewrite of_mx_ord big_nat_recr //= => ->.
    ring_R; ring.
  pose t := - (c / m j j).
  have Hv := IH (ltnW jk) (y + t *: ecol jo).
  rewrite quad_add_delta in Hv; first by move: (schur_sym m j Asym).
  rewrite Sy Sjj in Hv.
  rewrite schur_step -/u quad_sub_outer -/c.
  have -> : quad (schur m j) y - c * c =
            quad (schur m j) y + 2%:R * t * (m j j * c) + t * t * (m j j * m j j).
    rewrite /t mulr2n; ring_R; field; exact: ane.
  apply: Hv.
  - move=> i ij; rewrite addmxE scalemxE ecol_entry suppy; first by rewrite ltnS ltnW.
    have -> : (i == jo) = false by apply: ltn_eqF.
    ring_R; ring.
  - have [i yi] := nonzero_entry yn.
    apply/eqP => v0; apply: yi.
    have := congr1 (fun M : 'cV[R]_n => M i ord0) v0.
    rewrite addmxE scalemxE ecol_entry [(0 : 'cV[R]_n) i ord0]mxE /=.
    case: (ltnP i j.+1) => [ij | ji].
      by rewrite suppy.
    have -> : (i == jo) = false by apply/negbTE; rewrite neq_ltn ji orbT.
    by move=> h; rewrite -h mulr0 addr0.
Qed.

Lemma llt_pivot m k :
  A^T = A -> posdef -> Inv k m -> (k < n)%N ->
  Rlt 0 (m k k - \sum_(0 <= p < k) m k p * m k p).
Proof.
  move=> Asym PD Hi kn.
  pose ko := Ordinal kn.
  have H := schur_pd Asym PD Hi (ltnW kn) (leqnn k) (v := ecol ko).
  rewrite quad_delta mxE in H.
  case: Hi => I1 _ _.
  have -> : m k k = A ko ko.
    by rewrite I1; [case; rewrite ltnn | exact: (of_mx_ord A ko ko)].
  apply H.
  - move=> i ik; rewrite ecol_entry.
    by have -> : (i == ko) = false by apply: ltn_eqF.
  - apply/eqP => e; have := congr1 (fun M : 'cV[R]_n => M ko ord0) e.
    rewrite ecol_entry eqxx mxE; by move/eqP; rewrite oner_eq0.
Qed.

Lemma llt_loop_ok k fuel m :
  A^T = A -> posdef -> (k + fuel)%N = n -> Inv k m ->
  exists m', Eigen.llt_loop n k fuel m = (m', None).
Proof.
  move=> Asym PD; elim: fuel k m => [|fuel IH] k m kf Hi /=.
    by exists m.
  have kn : (k < n)%N by rewrite -kf addnS ltnS leq_addr.
  case E: (Eigen.llt_step n k m) => [m1|].
    apply: (IH k.+1 m1); first by rewrite addSnnS.
    exact: (llt_step_Inv kn Hi E).
  move: E; rewrite /Eigen.llt_step; case: Rle_dec => // le _.
  exfalso; exact: (Rle_not_lt _ _ le (llt_pivot Asym PD Hi kn)).
Qed.



Lemma compute_Inv :
  Eigen.info (Eigen.compute A) = Eigen.Success ->
  exists m, Inv n m /\ L = trig_of m.
Proof.
  rewrite /L /Eigen.info /Eigen.matrixL /Eigen.compute /Eigen.llt_unblocked.
  case E: (Eigen.llt_loop n 0 n (Eigen.of_mx A)) => [m [r|]] //= _.
  exists m; split.
    by apply: (llt_loop_Inv _ Inv0 E); rewrite add0n.
  by apply/matrixP => i j; rewrite !mxE.
Qed.

Lemma spd_success : A^T = A -> posdef -> Eigen.info (Eigen.compute A) = Eigen.Success.
Proof.
  move=> Asym PD.
  rewrite /Eigen.info /Eigen.compute /Eigen.llt_unblocked.
  have [m' ->] := llt_loop_ok Asym PD (add0n n) Inv0.
  by [].
Qed.

Lemma sum_trig (m : Eigen.mat) (i l : 'I_n) : (l <= i)%N ->
  \sum_(p < n) (if (p <= i)%N then m i p else 0) * (if (p <= l)%N then m l p else 0)
  = \sum_(0 <= p < l.+1) m i p * m l p.
Proof.
  move=> li.
  rewrite -(big_mkord xpredT (fun p => (if (p <= i)%N then m i p else 0) *
                                        (if (p <= l)%N then m l p else 0))).
  rewrite (big_cat_nat (leq0n l.+1) (ltn_ord l)) /=.
  rewrite [X in _ + X]big_nat_cond [X in _ + X]big1 ?addr0.
    by move=> p /andP [/andP [lp _] _]; rewrite (leqNgt p l) lp mulr0.
  apply: eq_big_nat => p /andP [_]; rewrite ltnS => pl.
  by rewrite pl (leq_trans pl li).
Qed.

Lemma trig_low m : Inv n m ->
  forall a b : 'I_n, (b <= a)%N -> (trig_of m *m (trig_of m)^T) a b = A a b.
Proof.
  move=> [_ I2 _] a b ba; rewrite mxE.
  under eq_bigr => p _ do rewrite !mxE.
  rewrite sum_trig // -(of_mx_ord A); symmetry; exact: (I2 a b (ltn_ord b) ba (ltn_ord a)).
Qed.

Lemma llt_factor :
  A^T = A -> Eigen.info (Eigen.compute A) = Eigen.Success ->
  [/\ L *m L^T = A, is_trig_mx L & forall i, Rlt 0 (L i i)].
Proof.
  move=> Asym /compute_Inv [m [[I1 I2 I3] ->]].
  split.
  - have low := trig_low (And3 I1 I2 I3).
    apply/matrixP => i l; case: (leqP l i) => [li | il]; first exact: low.
    transitivity ((trig_of m *m (trig_of m)^T)^T l i); first by rewrite [RHS]mxE.
    rewrite trmx_mul trmxK (low l i (ltnW il)).
    by rewrite -[in RHS]Asym mxE.
  - by apply/is_trig_mxP => i j ij; rewrite mxE leqNgt ij.
  - by move=> i; rewrite mxE leqnn; apply: I3.
Qed.

Lemma L_unit :
  Eigen.info (Eigen.compute A) = Eigen.Success -> A^T = A -> L \in unitmx.
Proof.
  move=> S Asym; have [_ Ltrig Lpos] := llt_factor Asym S.
  rewrite unitmxE det_trig // unitfE; apply/prodf_neq0 => i _; apply/eqP.
  exact: Rgt_not_eq (Lpos i).
Qed.

Lemma success_posdef : A^T = A -> Eigen.info (Eigen.compute A) = Eigen.Success -> posdef.
Proof.
  move=> Asym S v vn.
  have [LL _ _] := llt_factor Asym S.
  have U := L_unit S Asym.
  rewrite /quad -LL !mulmxA -mulmxA -[v^T *m L]trmxK trmx_mul trmxK.
  set w := L^T *m v.
  have wn : w != 0.
    apply/eqP => w0; move/eqP: vn; apply.
    have UT : L^T \in unitmx by rewrite unitmx_tr.
    by rewrite -(mulKmx UT v) -/w w0 mulmx0.
  have [i wi] := nonzero_entry wn.
  rewrite mxE (bigD1 i) //= mxE.
  apply: Rlt_le_trans (Rplus_le_compat_l _ _ _ (sum_sq_ge0 _ _)).
  rewrite Rplus_0_r; apply: Rsqr_pos_lt; exact: wi.
Qed.
End Cholesky.

Module KinematicsFacts.
Import Kinematics.

Lemma quat_eq (a b : Quaternion) :
  qx a = qx b -> qy a = qy b -> qz a = qz b -> qw a = qw b -> a = b.
Proof. by case: a => a1 a2 a3 a4; case: b => b1 b2 b3 b4 /= -> -> -> ->. Qed.

Lemma qmulA a b c : qmul (qmul a b) c = qmul a (qmul b c).
Proof. by apply: quat_eq; rewrite /qmul /=; ring_R; ring. Qed.

Lemma qmul_conj_l q : qmul (conjugate q) q = Quaternion_ 0 0 0 (squaredNorm q).
Proof. by apply: quat_eq; rewrite /qmul /conjugate /squaredNorm /=; ring_R; ring. Qed.

Lemma qmul_conj_r q : qmul q (conjugate q) = Quaternion_ 0 0 0 (squaredNorm q).
Proof. by apply: quat_eq; rewrite /qmul /conjugate /squaredNorm /=; ring_R; ring. Qed.

Lemma qmul_scalar_r a s : qmul a (Quaternion_ 0 0 0 s) = qscale s a.
Proof. by apply: quat_eq; rewrite /qmul /qscale /=; ring_R; ring. Qed.

Lemma qmul_scalar_l a s : qmul (Quaternion_ 0 0 0 s) a = qscale s a.
Proof. by apply: quat_eq; rewrite /qmul /qscale /=; ring_R; ring. Qed.

Lemma squaredNorm_qmul a b : squaredNorm (qmul a b) = squaredNorm a * squaredNorm b.
Proof. rewrite /squaredNorm /qmul /=; ring_R; ring. Qed.

Lemma squaredNorm_qscale c a : squaredNorm (qscale c a) = c * c * squaredNorm a.
Proof. rewrite /squaredNorm /qscale /=; ring_R; ring. Qed.

Lemma squaredNorm_conjugate a : squaredNorm (conjugate a) = squaredNorm a.
Proof. rewrite /squaredNorm /conjugate /=; ring_R; ring. Qed.

Lemma qinverse_unit q : squaredNorm q = 1 -> qinverse q = conjugate q.
Proof.
  move=> h; rewrite /qinverse h; destruct (Rlt_dec _ _) as [h0 | h1]; last by exfalso; apply: h1; exact: Rlt_0_1.
  rewrite /=; apply: quat_eq; rewrite /qscale /=; to_R; rewrite Rinv_1; ring.
Qed.

Lemma squaredNorm_normalized q : Rlt 0 (squaredNorm q) -> squaredNorm (normalized q) = 1.
Proof.
  rewrite /normalized => zpos; destruct (Rlt_dec _ _) as [h0 | h1]; last by exfalso; apply: h1.
  rewrite /= squaredNorm_qscale; to_R.
  have sq := sqrt_lt_R0 _ zpos.
  have ne : sqrt (squaredNorm q) <> 0 by apply: Rgt_not_eq.
  rewrite -{3}(sqrt_sqrt _ (Rlt_le _ _ zpos)).
  by field.
Qed.


Lemma rot_diff_vec0 qm qe :
  squaredNorm qm = 1 -> squaredNorm qe = 1 ->
  let d := qmul qm (qinverse qe) in
  (qx d = 0 /\ qy d = 0 /\ qz d = 0) <-> (qe = qm \/ qe = qscale (-1) qm).
Proof.
  move=> nm ne d; rewrite /d qinverse_unit //.
  split; last first.
    by case=> ->; rewrite /qmul /conjugate /qscale /=; (split; [|split]); ring_R; ring.
  move=> [dx [dy dz]].
  set w := qw (qmul qm (conjugate qe)).
  have dE : qmul qm (conjugate qe) = Quaternion_ 0 0 0 w by apply: quat_eq.
  have E : qscale 1 qm = qscale w qe.
    by rewrite -[qscale w qe]qmul_scalar_l -dE qmulA qmul_conj_l ne qmul_scalar_r.
  have w2 : w * w = 1.
    have := congr1 squaredNorm E; rewrite !squaredNorm_qscale nm ne; to_R => h.
    ring_R; nra.
  have [w1 | w1] : w = 1 \/ w = -1.
    to_R; have h : Rmult (Rminus w R1) (Rplus w R1) = R0.
      by move: w2; to_R => h; nra.
    case: (Rmult_integral _ _ h) => h'; [left | right]; lra.
  - left; move: E; rewrite w1 => E.
    apply: quat_eq; move: (congr1 qx E) (congr1 qy E) (congr1 qz E) (congr1 qw E);
      rewrite /qscale /=; to_R => h1 h2 h3 h4; lra.
  - right; move: E; rewrite w1 => E.
    apply: quat_eq; move: (congr1 qx E) (congr1 qy E) (congr1 qz E) (congr1 qw E);
      rewrite /qscale /=; to_R => h1 h2 h3 h4; rewrite /=; lra.
Qed.

Lemma qvec_eq0 q : qvec q = 0 <-> (qx q = 0 /\ qy q = 0 /\ qz q = 0).
Proof.
  split.
  - move=> h.
    have e0 := congr1 (fun M : 'cV[R]_3 => M (@Ordinal 3 0 isT) ord0) h.
    have e1 := congr1 (fun M : 'cV[R]_3 => M (@Ordinal 3 1 isT) ord0) h.
    have e2 := congr1 (fun M : 'cV[R]_3 => M (@Ordinal 3 2 isT) ord0) h.
    by move: e0 e1 e2; rewrite /qvec /= !mxE /=.
  - move=> [hx [hy hz]]; apply/matrixP => i j; rewrite !mxE.
    by case: i => [[|[|[|i]]] Hi] //=.
Qed.

End KinematicsFacts.

Module RelativePoseErrorFacts.
Import Kinematics KinematicsFacts RelativePoseError.

Lemma make_eq information T_AB :
  make information T_AB =
  Ret (RelativePoseError_ T_AB information (Eigen.inverse information)
                          (Eigen.matrixL (Eigen.compute information))^T).
Proof. by []. Qed.


Lemma two_neq0 : (2%:R : R) != 0.
Proof. apply/eqP; rewrite mulr2n; to_R; lra. Qed.

Lemma scale2_eq0 m p {v : 'M[R]_(m, p)} : 2%:R *: v = 0 <-> v = 0.
Proof.
  split=> [h | ->]; last by rewrite scaler0.
  by rewrite -[v]scale1r -(mulVf two_neq0) -scalerA h scaler0.
Qed.

Lemma whiten_eq0 (information : 'M[R]_6) {x : 'cV[R]_6} :
  information^T = information -> posdef information ->
  (Eigen.matrixL (Eigen.compute information))^T *m x = 0 <-> x = 0.
Proof.
  move=> Asym PD; split=> [h | ->]; last by rewrite mulmx0.
  have S := spd_success Asym PD.
  have U : (L information)^T \in unitmx by rewrite unitmx_tr; exact: L_unit.
  by rewrite -(mulKmx U x) -/(L information) h mulmx0.
Qed.

Lemma col_mx_eq0' m1 m2 p {a : 'M[R]_(m1, p)} {b : 'M[R]_(m2, p)} :
  col_mx a b = 0 <-> a = 0 /\ b = 0.
Proof.
  split=> [h | [-> ->]]; last by rewrite col_mx0.
  by move: h; rewrite -col_mx0 => /eq_col_mx.
Qed.

Lemma unit_estimate parameters :
  Rlt 0 (squaredNorm (Quaterniond (parameters 0%N 6%N) (parameters 0%N 3%N)
                                  (parameters 0%N 4%N) (parameters 0%N 5%N))) ->
  Rlt 0 (squaredNorm (Quaterniond (parameters 1%N 6%N) (parameters 1%N 3%N)
                                  (parameters 1%N 4%N) (parameters 1%N 5%N))) ->
  squaredNorm (q (tmul (tinverse (pose_of parameters 0%N)) (pose_of parameters 1%N))) = 1.
Proof.
  move=> hA hB; rewrite /= squaredNorm_qmul.
  rewrite (qinverse_unit (squaredNorm_normalized hA)).
  rewrite squaredNorm_conjugate !squaredNorm_normalized //; ring_R; ring.
Qed.


(** C2: for a RelativePoseError made from a symmetric positive-definite
    information matrix and a unit measured rotation, and two parameter blocks
    whose quaternions are nonzero (normalised before use), Evaluate returns
    true and the whitened residual is the zero vector exactly when the
    estimated T_AB = T_WA^-1 T_WB has the measured translation and the measured
    rotation (the unit quaternion q or its antipode -q, the same rotation). *)
Theorem residual_zero_iff (information : 'M[R]_6) (T_AB : Transformation)
    (e : RelativePoseError) (parameters : nat -> nat -> R) :
  information^T = information -> posdef information ->
  squaredNorm (q T_AB) = 1 ->
  Rlt 0 (squaredNorm (Quaterniond (parameters 0%N 6%N) (parameters 0%N 3%N)
                                  (parameters 0%N 4%N) (parameters 0%N 5%N))) ->
  Rlt 0 (squaredNorm (Quaterniond (parameters 1%N 6%N) (parameters 1%N 3%N)
                                  (parameters 1%N 4%N) (parameters 1%N 5%N))) ->
  make information T_AB = Ret e ->
  let T_est := tmul (tinverse (pose_of parameters 0%N)) (pose_of parameters 1%N) in
  (Evaluate e parameters).1 = true /\
  ((Evaluate e parameters).2 = 0 <->
   r T_est = r T_AB /\ (q T_est = q T_AB \/ q T_est = qscale (-1) (q T_AB))).
Proof.
  move=> Asym PD hm hA hB; rewrite make_eq => -[<-] T_est.
  split=> //.
  have ROT := rot_diff_vec0 hm (unit_estimate hA hB).
  rewrite /Evaluate /EvaluateWithMinimalJacobians /=.
  split.
  - move=> h0; have h1 := proj1 (whiten_eq0 Asym PD) h0; rewrite /error_of in h1.
    move/eqP: h1; rewrite (@col_mx_eq0 _ 3 3) => /andP [/eqP ht /eqP hq].
    split; first by move/subr0_eq: ht.
    have h2 := proj1 scale2_eq0 hq. have h3 := proj1 (qvec_eq0 _) h2. simpl in ROT. exact: (proj1 ROT h3).
  - move=> [ht hq]; apply: (proj2 (whiten_eq0 Asym PD)); rewrite /error_of.
    apply/eqP; rewrite (@col_mx_eq0 _ 3 3); apply/andP; split; apply/eqP; first by rewrite /= -/T_est ht subrr.
    exact: (proj2 scale2_eq0 (proj2 (qvec_eq0 _) (proj2 ROT hq))).
Qed.

End RelativePoseErrorFacts.

Module AdapterFacts.
Import Kinematics Adapter AdapterSpec.
Local Open Scope R_scope.

Lemma for_loopS {St} start count (body : nat -> method St unit) s :
  for_loop start count.+1 body s =
  match body start s with
  | (Ret _, s1) => for_loop start.+1 count body s1
  | (Throw e, s1) => (Throw e, s1)
  end.
Proof. by rewrite /= /mbind; case: (body start s) => [[?|?] ?]. Qed.

Lemma keypoint_body_spec points matches frameB im fu k cams E :
  keypoint_body points matches frameB im fu k (mkstate frameB cams E) =
  match kp_status points matches frameB im k with
  | Skip => (Ret tt, mkstate frameB cams E)
  | Missing => (Throw out_of_range, mkstate frameB cams E)
  | Accept hp => (Ret tt, mkstate frameB cams (rcons E (entry frameB im fu k hp)))
  end.
Proof.
  rewrite /keypoint_body /kp_status.
  case: (matches _) => [lmId|] //; case: (lmId == 0)%N => //.
  case: (points lmId) => [hp|] //.
  destruct (Rlt_dec _ _) as [h0 | h0] => //.
  rewrite /entry /bearing_of /mkstate /mbind /=.
  case: (getBackProjection frameB im k) => ok dir /=.
  by rewrite !map_rcons.
Qed.


Lemma kp_loop_spec points matches frameB im fu cams c : forall k0 E,
  let run := for_loop k0 c (keypoint_body points matches frameB im fu) (mkstate frameB cams E) in
  match kp_run points matches frameB im fu (iota k0 c) with
  | Some es => run = (Ret tt, mkstate frameB cams (E ++ es))
  | None => exists s', run = (Throw out_of_range, s')
  end.
Proof.
  elim: c => [|c IH] k0 E; first by rewrite /= cats0.
  rewrite for_loopS keypoint_body_spec /=.
  case: (kp_status points matches frameB im k0) => [| |hp].
  - exact: IH.
  - by eexists.
  - move: (IH k0.+1 (rcons E (entry frameB im fu k0 hp))) => /=.
    by case: (kp_run _ _ _ _ _ _) => [es|] //; rewrite cat_rcons.
Qed.

Lemma camera_body_spec points matches dt frameB im cams E :
  supported dt ->
  let run := camera_body points matches dt frameB im (mkstate frameB cams E) in
  match cam_run points matches frameB im with
  | Some es => run = (Ret tt, mkstate frameB (rcons cams im) (E ++ es))
  | None => exists s', run = (Throw out_of_range, s')
  end.
Proof.
  move=> sup; rewrite /camera_body /cam_run /mbind /=.
  have -> : focal_length dt frameB im = mret (focalLengthU (camera frameB im)).
    by case: dt sup.
  have H := kp_loop_spec points matches frameB im (focalLengthU (camera frameB im))
              (rcons cams im) (numKeypoints frameB im) 0 E.
  move: H => /=; rewrite /mkstate /= !map_rcons.
  by case: (kp_run _ _ _ _ _ _).
Qed.

Lemma camera_body_unsupported points matches dt frameB im s :
  ~~ supported dt ->
  exists s', camera_body points matches dt frameB im s =
             (Throw (Exception "Unsupported distortion type"), s').
Proof. by case: dt => // _; eexists. Qed.

Lemma camera_loop_spec points matches dt frameB c :
  supported dt -> forall i0 cams E,
  let run := for_loop i0 c (camera_body points matches dt frameB) (mkstate frameB cams E) in
  match cams_run points matches frameB (iota i0 c) with
  | Some es => run = (Ret tt, mkstate frameB (cams ++ iota i0 c) (E ++ es))
  | None => exists s', run = (Throw out_of_range, s')
  end.
Proof.
  move=> sup; elim: c => [|c IH] i0 cams E; first by rewrite /= !cats0.
  rewrite for_loopS /=.
  have := camera_body_spec points matches frameB i0 cams E sup.
  case: (cam_run _ _ _ _) => [es|] /=; last first.
    by case=> s' ->; eexists.
  move=> ->.
  have := IH i0.+1 (rcons cams i0) (E ++ es).
  case: (cams_run _ _ _ _) => [es'|] //.
  by rewrite cat_rcons catA.
Qed.

Lemma check_distortion_loop sys dt c : forall i0 (s : Adapter),
  for_loop i0 c (fun i =>
    if DistortionType_eqb dt (distortionType sys i) then mret tt
    else mthrow (Exception "mixed frame types are not supported yet"%string)) s =
  if all (fun i => DistortionType_eqb dt (distortionType sys i)) (iota i0 c) then (Ret tt, s)
  else (Throw (Exception "mixed frame types are not supported yet"%string), s).
Proof.
  elim: c => [|c IH] i0 s //.
  rewrite for_loopS /=.
  by case: (DistortionType_eqb _ _) => /=.
Qed.

Lemma ctor_spec points matches sys frameB :
  LoopclosureNoncentralAbsoluteAdapter points matches sys frameB =
  ctor_outcome points matches sys frameB.
Proof.
  rewrite /LoopclosureNoncentralAbsoluteAdapter /ctor_body /ctor_outcome /mbind.
  rewrite /check_distortion check_distortion_loop -/(single_family sys).
  case: (single_family sys) => //.
  have E0 : empty = mkstate frameB [::] [::] by [].
  case sup: (supported (distortionType sys 0)).
  - have := camera_loop_spec points matches frameB (numCameras sys) sup 0 [::] [::].
    rewrite andbF E0.
    case: (cams_run _ _ _ _) => [es|].
    + by move=> ->.
    + by case=> s' ->.
  - rewrite andbT.
    case: (numCameras sys) => [|n] //.
    rewrite for_loopS.
    have [s' ->] := camera_body_unsupported points matches frameB 0 empty (negbT sup).
    by [].
Qed.



Lemma counted_status points matches frameB im k :
  counted points matches frameB im k = is_accept (kp_status points matches frameB im k).
Proof.
  rewrite /counted /kp_status.
  case: (matches _) => [lmId|] //.
  case: eqP => [-> | _] //=.
  case: (points lmId) => [hp|] //.
  destruct (Rlt_dec _ _) as [h0 | h0]; destruct (Rle_dec _ _) as [h1 | h1] => //; lra.
Qed.

Lemma kp_status_Accept points matches frameB im k hp :
  kp_status points matches frameB im k = Accept hp <->
  exists lmId, matches (frameId frameB, im, k) = Some lmId /\ lmId <> 0%N /\
               points lmId = Some hp /\ 1e-8 <= Rabs (at4 hp 3).
Proof.
  rewrite /kp_status; split.
  - case: (matches _) => [lmId|] //.
    case: eqP => [// | l0].
    case E: (points lmId) => [hp'|] //.
    destruct (Rlt_dec _ _) as [h0 | h0] => // [[<-]].
    by exists lmId; repeat split => //; apply Rnot_lt_le.
  - case=> lmId [-> [l0 [-> hw]]].
    case: eqP => [// | _].
    destruct (Rlt_dec _ _) as [h0 | h0] => //; lra.
Qed.


Lemma kp_run_size points matches frameB im fu ks es :
  kp_run points matches frameB im fu ks = Some es ->
  size es = count (counted points matches frameB im) ks.
Proof.
  elim: ks es => [|k ks IH] es /=; first by case=> <-.
  rewrite counted_status.
  case: (kp_status _ _ _ _ _) => [| |hp] /=; first exact: IH.
  - by [].
  - case E: (kp_run _ _ _ _ _ _) => [es'|] // [<-] /=.
    by rewrite (IH _ E).
Qed.


Lemma In_cat {T} (x : T) (s1 s2 : seq T) : List.In x (s1 ++ s2) <-> List.In x s1 \/ List.In x s2.
Proof.
  elim: s1 => [|y s1 IH] /=; first by intuition.
  rewrite IH; intuition.
Qed.

Lemma In_nth {T} (d x : T) (s : seq T) :
  List.In x s <-> exists i, (i < size s)%N /\ nth d s i = x.
Proof.
  elim: s => [|y s IH] /=; first by split => [[] | [i []]].
  rewrite IH; split.
  - case=> [<- | [i [hi <-]]]; first by exists 0%N.
    by exists i.+1.
  - case=> [[|i] [hi <-]]; [by left | right; by exists i].
Qed.

Lemma kp_run_In points matches frameB im fu ks es e :
  kp_run points matches frameB im fu ks = Some es -> List.In e es ->
  exists k hp, (k \in ks) /\ kp_status points matches frameB im k = Accept hp /\
               e = entry frameB im fu k hp.
Proof.
  elim: ks es => [|k ks IH] es /=; first by case=> <-.
  case S: (kp_status _ _ _ _ _) => [| |hp] //.
  - move=> /IH H /H [k' [hp [hk H']]].
    by exists k', hp; rewrite in_cons hk orbT.
  - case E: (kp_run _ _ _ _ _ _) => [es'|] // [<-] /= [<- | hin].
    + by exists k, hp; rewrite in_cons eqxx.
    + have [k' [hp' [hk H']]] := IH _ E hin.
      by exists k', hp'; rewrite in_cons hk orbT.
Qed.


Lemma cams_run_size points matches frameB ims E :
  cams_run points matches frameB ims = Some E ->
  size E = (\sum_(im <- ims) count (counted points matches frameB im)
                                   (iota 0 (numKeypoints frameB im)))%N.
Proof.
  elim: ims E => [|im ims IH] E /=; first by case=> <-; rewrite big_nil.
  rewrite big_cons /cam_run.
  case E1: (kp_run _ _ _ _ _ _) => [es|] //.
  case E2: (cams_run _ _ _ _) => [es'|] // [<-].
  by rewrite size_cat (kp_run_size E1) (IH _ E2).
Qed.


Lemma cams_run_In points matches frameB ims E e :
  cams_run points matches frameB ims = Some E -> List.In e E ->
  exists im k hp, im \in ims /\ (k < numKeypoints frameB im)%N /\
    kp_status points matches frameB im k = Accept hp /\
    e = entry frameB im (focalLengthU (camera frameB im)) k hp.
Proof.
  elim: ims E => [|im ims IH] E /=; first by case=> <-.
  rewrite /cam_run.
  case E1: (kp_run _ _ _ _ _ _) => [es|] //.
  case E2: (cams_run _ _ _ _) => [es'|] // [<-] /In_cat [hin | hin].
  - have [k [hp [hk [hs ->]]]] := kp_run_In E1 hin.
    exists im, k, hp; rewrite in_cons eqxx; split => //.
    by move: hk; rewrite mem_iota.
  - have [im' [k [hp [h1 h2]]]] := IH _ E2 hin.
    by exists im', k, hp; rewrite in_cons h1 orbT.
Qed.


Lemma ctor_Ret points matches sys frameB a :
  LoopclosureNoncentralAbsoluteAdapter points matches sys frameB = Ret a ->
  [/\ single_family sys, (0 < numCameras sys)%N ==> supported (distortionType sys 0) &
    exists E, cams_run points matches frameB (iota 0 (numCameras sys)) = Some E /\
              a = mkstate frameB (iota 0 (numCameras sys)) E].
Proof.
  rewrite ctor_spec /ctor_outcome.
  case: (single_family sys) => //.
  case: ((0 < numCameras sys)%N); case: (supported _) => //=;
  (case: (cams_run _ _ _ _) => [E|] //; case=> <-; split => //; by exists E).
Qed.

Lemma ctor_Ret_entries points matches sys frameB a :
  LoopclosureNoncentralAbsoluteAdapter points matches sys frameB = Ret a ->
  forall i, (i < getNumberCorrespondences a)%N ->
  exists im k hp, (im < numCameras sys)%N /\ (k < numKeypoints frameB im)%N /\
    kp_status points matches frameB im k = Accept hp /\
    getPoint a i = dehomogenise hp /\
    getBearingVector a i = normalize (bearing_of frameB im k) /\
    getSigmaAngle a i = sigmaAngle (getKeypointSize frameB im k) (focalLengthU (camera frameB im)) /\
    nth 0%N (camIndices_ a) i = im /\ nth 0%N (keypointIndices_ a) i = k.
Proof.
  move=> /ctor_Ret [_ _ [E [HE ->]]] i.
  rewrite /getNumberCorrespondences /= size_map => hi.
  set d := Entry_ zero3 zero3 0 0 0.
  have hin : List.In (nth d E i) E by apply/(In_nth d); exists i.
  have [im [k [hp [h1 [h2 [h3 h4]]]]]] := cams_run_In HE hin.
  exists im, k, hp; move: h1; rewrite mem_iota add0n => h1; do 3 split => //.
  rewrite /getPoint /getBearingVector /getSigmaAngle /= !(nth_map d) // h4.
  by repeat split.
Qed.

Lemma at3_V0 x y z : at3 (Vector3d x y z) 0 = x.
Proof. by rewrite /at3 /Vector3d !mxE !inordK. Qed.
Lemma at3_V1 x y z : at3 (Vector3d x y z) 1 = y.
Proof. by rewrite /at3 /Vector3d !mxE !inordK. Qed.
Lemma at3_V2 x y z : at3 (Vector3d x y z) 2 = z.
Proof. by rewrite /at3 /Vector3d !mxE !inordK. Qed.


Lemma normalize_unit v : 0 < squaredNorm3 v -> squaredNorm3 (normalize v) = 1.
Proof.
  rewrite /squaredNorm3 /normalize => hz.
  destruct (Rlt_dec _ _) as [h0 | h0]; last by [].
  rewrite !(at3_V0, at3_V1, at3_V2).
  set z := _ + _ + _ in hz h0 *.
  have hs : sqrt z * sqrt z = z by exact: (sqrt_sqrt z (Rlt_le _ _ hz)).
  have hs0 : sqrt z <> 0 by exact: (Rgt_not_eq _ _ (sqrt_lt_R0 z hz)).
  have -> : at3 v 0 / sqrt z * (at3 v 0 / sqrt z) + at3 v 1 / sqrt z * (at3 v 1 / sqrt z) +
            at3 v 2 / sqrt z * (at3 v 2 / sqrt z) = z / (sqrt z * sqrt z).
    by rewrite /z; field.
  by rewrite hs /Rdiv Rinv_r //; apply: Rgt_not_eq.
Qed.

Lemma bearing_nonzero frameB im k : 0 < squaredNorm3 (bearing_of frameB im k).
Proof.
  rewrite /bearing_of /getBackProjection /squaredNorm3.
  case: (undistortOk _); rewrite !(at3_V0, at3_V1, at3_V2); nra.
Qed.


Lemma DistortionType_eqb_eq a b : DistortionType_eqb a b = true <-> a = b.
Proof. by case: a; case: b. Qed.

Lemma single_family_eq sys i :
  single_family sys -> (i < numCameras sys)%N -> distortionType sys i = distortionType sys 0.
Proof.
  move=> /allP H hi; case: i hi => [// | i] hi.
  symmetry; apply/DistortionType_eqb_eq; apply: H.
  by rewrite mem_iota subnKC // (leq_ltn_trans (leq0n i) (ltnW hi)).
Qed.

(** C3: when the constructor returns an adapter, getNumberCorrespondences
    is the number of (camera, keypoint) pairs of frameB whose association
    exists, is not 0 and names a landmark with |w| >= 1e-8; and every stored
    correspondence i (point, bearing, camera and keypoint index) comes from
    such a pair, its point being the landmark dehomogenised. *)
Theorem correspondence_count points matches sys frameB a :
  LoopclosureNoncentralAbsoluteAdapter points matches sys frameB = Ret a ->
  getNumberCorrespondences a =
    (\sum_(im <- iota 0 (numCameras sys))
       count (counted points matches frameB im) (iota 0 (numKeypoints frameB im)))%N /\
  (forall i, (i < getNumberCorrespondences a)%N ->
   exists im k lmId hp,
     [/\ matches (frameId frameB, im, k) = Some lmId, lmId <> 0%N, points lmId = Some hp,
         1e-8 <= Rabs (at4 hp 3) &
         [/\ getPoint a i = dehomogenise hp, getBearingVector a i = normalize (bearing_of frameB im k),
             nth 0%N (camIndices_ a) i = im & nth 0%N (keypointIndices_ a) i = k]]).
Proof.
  move=> H; split.
  - have [_ _ [E [HE ->]]] := ctor_Ret H.
    by rewrite /getNumberCorrespondences /= size_map (cams_run_size HE).
  - move=> i /(ctor_Ret_entries H) [im [k [hp [_ [_ [hs [h1 [h2 [_ [h3 h4]]]]]]]]]].
    have [lmId [m1 [m2 [m3 m4]]]] := proj1 (kp_status_Accept _ _ _ _ _ _) hs.
    by exists im, k, lmId, hp.
Qed.

(** C4: a rig with two cameras of different distortion types makes the
    constructor throw "mixed frame types are not supported yet", and it
    throws from the distortion check, with the members still empty. *)
Theorem mixed_rig_throws points matches sys frameB i j :
  (i < numCameras sys)%N -> (j < numCameras sys)%N ->
  distortionType sys i <> distortionType sys j ->
  LoopclosureNoncentralAbsoluteAdapter points matches sys frameB =
    Throw (Exception "mixed frame types are not supported yet") /\
  ctor_body points matches sys frameB empty =
    (Throw (Exception "mixed frame types are not supported yet"), empty).
Proof.
  move=> hi hj hd.
  have hs : single_family sys = false.
    apply/negbTE/negP => hs; apply: hd.
    by rewrite (single_family_eq hs hi) (single_family_eq hs hj).
  split; first by rewrite ctor_spec /ctor_outcome hs.
  by rewrite /ctor_body /mbind /check_distortion check_distortion_loop -/(single_family sys) hs.
Qed.


(** C7: every stored sigma angle is
    sqrt(2) * (0.8 * size / 12)^2 / fu^2 for the size of its keypoint and the
    focal length fu of its camera. *)
Theorem sigma_angle points matches sys frameB a :
  LoopclosureNoncentralAbsoluteAdapter points matches sys frameB = Ret a ->
  forall i, (i < getNumberCorrespondences a)%N ->
  exists im k, [/\ (im < numCameras sys)%N, (k < numKeypoints frameB im)%N,
    nth 0%N (camIndices_ a) i = im, nth 0%N (keypointIndices_ a) i = k &
    getSigmaAngle a i =
      sqrt 2 * (0.8 * getKeypointSize frameB im k / 12) ^ 2 / (focalLengthU (camera frameB im)) ^ 2].
Proof.
  move=> H i /(ctor_Ret_entries H) [im [k [hp [h1 [h2 [_ [_ [_ [h5 [h6 h7]]]]]]]]]].
  exists im, k; split => //; rewrite h5 /sigmaAngle /Rdiv.
  set fu := focalLengthU _.
  have -> : fu ^ 2 = fu * fu by ring.
  have -> : 12.0 = 12 by rewrite /Q2R /=; field.
  ring_R; ring.
Qed.

(** C10: the five per-correspondence arrays all have
    getNumberCorrespondences elements, camOffsets_ and camRotations_ have one
    element per camera, every stored bearing has unit squared norm and every
    stored camera index is below the number of cameras. *)
Theorem adapter_invariant points matches sys frameB a :
  LoopclosureNoncentralAbsoluteAdapter points matches sys frameB = Ret a ->
  let n := getNumberCorrespondences a in
  [/\ size (points_ a) = n, size (bearingVectors_ a) = n, size (sigmaAngles_ a) = n,
      size (camIndices_ a) = n & size (keypointIndices_ a) = n] /\
  size (camOffsets_ a) = numCameras sys /\ size (camRotations_ a) = numCameras sys /\
  (forall i, (i < n)%N ->
     squaredNorm3 (getBearingVector a i) = 1 /\ (nth 0%N (camIndices_ a) i < numCameras sys)%N).
Proof.
  move=> H; have [_ _ [E [HE Ha]]] := ctor_Ret H.
  cbv zeta; split; last split; last split.
  - by rewrite Ha /getNumberCorrespondences /= !size_map; split.
  - by rewrite Ha /= size_map size_iota.
  - by rewrite Ha /= size_map size_iota.
  - move=> i /(ctor_Ret_entries H) [im [k [hp [h1 [h2 [_ [_ [h4 [_ [h6 _]]]]]]]]]].
    by rewrite h4 h6; split => //; apply: normalize_unit; apply: bearing_nonzero.
Qed.



End AdapterFacts.

Module SetInformationFacts.
Import Kinematics KinematicsFacts RelativePoseError RelativePoseErrorFacts.

Lemma quad_1 n (v : 'cV[R]_n) : v != 0 -> Rlt 0 (quad 1%:M v).
Proof.
  move=> vn; rewrite /quad mulmx1.
  have [i wi] := nonzero_entry vn.
  rewrite mxE (bigD1 i) //= mxE.
  apply: Rlt_le_trans (Rplus_le_compat_l _ _ _ (sum_sq_ge0 _ _)).
  rewrite Rplus_0_r; apply: Rsqr_pos_lt; exact: wi.
Qed.

Lemma posdef_1 n : posdef (1%:M : 'M[R]_n).
Proof. by move=> v; apply: quad_1. Qed.

Lemma not_posdef_0 : ~ posdef (0 : 'M[R]_6).
Proof.
  move=> PD.
  have vn : (const_mx 1 : 'cV[R]_6) != 0.
    apply/eqP => h; have := congr1 (fun M : 'cV[R]_6 => M ord0 ord0) h.
    rewrite !mxE; to_R; exact: R1_neq_R0.
  have := PD _ vn; rewrite /quad mulmx0 mul0mx mxE; exact: Rlt_irrefl.
Qed.

Lemma info_compute_0 : Eigen.info (Eigen.compute (0 : 'M[R]_6)) = Eigen.NumericalIssue.
Proof.
  rewrite /Eigen.info /Eigen.compute /Eigen.llt_unblocked /= /Eigen.llt_step.
  have -> : Eigen.of_mx (0 : 'M[R]_6) 0 0 = 0 by rewrite (of_mx_ord _ ord0 ord0) mxE.
  rewrite big_geq // subr0.
  by case: Rle_dec => // h; exfalso; apply: h; to_R; exact: Rle_refl.
Qed.

(** C6: for a symmetric positive-definite information matrix M,
    setInformation stores M, a covariance that is M's two-sided inverse, and
    a square-root information R with R^T R = M. *)
Theorem setInformation_spd (M : 'M[R]_6) (s : RelativePoseError) :
  M^T = M -> posdef M ->
  let s' := snd (setInformation M s) in
  [/\ information_ s' = M, M *m covariance_ s' = 1%:M, covariance_ s' *m M = 1%:M
    & (squareRootInformation_ s')^T *m squareRootInformation_ s' = M].
Proof.
  move=> Msym PD /=.
  have S := spd_success Msym PD.
  have [LL _ _] := llt_factor Msym S.
  have U : M \in unitmx.
    by rewrite -LL unitmx_mul unitmx_tr L_unit.
  split => //; rewrite /Eigen.inverse.
  - exact: mulmxV.
  - exact: mulVmx.
  - by rewrite trmxK.
Qed.

(** setInformation always returns normally and stores the transposed lower
    factor of the LLT; for a symmetric M the decomposition reports
    NumericalIssue exactly when M is not positive definite. *)
Theorem setInformation_result (M : 'M[R]_6) (s : RelativePoseError) :
  setInformation M s =
    (Ret tt, RelativePoseError_ (T_AB_ s) M (Eigen.inverse M) (Eigen.matrixL (Eigen.compute M))^T) /\
  (M^T = M -> (Eigen.info (Eigen.compute M) = Eigen.NumericalIssue <-> ~ posdef M)).
Proof.
  split => // Msym; split.
  - by move=> hI PD; rewrite (spd_success Msym PD) in hI.
  - move=> nPD; case E: (Eigen.info _) => //.
    by exfalso; apply: nPD; exact: success_posdef Msym E.
Qed.

End SetInformationFacts.

Module AdapterWitnesses.
Import Kinematics Adapter AdapterSpec AdapterFacts Examples.
Local Open Scope R_scope.

Lemma ex_hp_w : at4 ex_hp 3 = 1.
Proof. by rewrite /at4 /ex_hp mxE. Qed.

Lemma ex_eps : 1e-8 <= Rabs (at4 ex_hp 3).
Proof. rewrite ex_hp_w Rabs_R1 /Q2R /=; lra. Qed.

Lemma ex_status : kp_status ex_points ex_matches ex_frame 0 0 = Accept ex_hp.
Proof. apply/kp_status_Accept; exists 1%N; repeat split => //; exact: ex_eps. Qed.

Lemma ex_ctor :
  LoopclosureNoncentralAbsoluteAdapter ex_points ex_matches ex_sys ex_frame = Ret ex_adapter.
Proof.
  rewrite ctor_spec /ctor_outcome /=.
  rewrite /cam_run /= ex_status.
  by [].
Qed.

(** C3 witness: one camera, one keypoint matched to a finite landmark. *)
Lemma correspondence_count_witness :
  LoopclosureNoncentralAbsoluteAdapter ex_points ex_matches ex_sys ex_frame = Ret ex_adapter /\
  (getNumberCorrespondences ex_adapter =
    (\sum_(im <- iota 0 (numCameras ex_sys))
       count (counted ex_points ex_matches ex_frame im) (iota 0 (numKeypoints ex_frame im)))%N /\
  (forall i, (i < getNumberCorrespondences ex_adapter)%N ->
   exists im k lmId hp,
     [/\ ex_matches (frameId ex_frame, im, k) = Some lmId, lmId <> 0%N, ex_points lmId = Some hp,
         1e-8 <= Rabs (at4 hp 3) &
         [/\ getPoint ex_adapter i = dehomogenise hp,
             getBearingVector ex_adapter i = normalize (bearing_of ex_frame im k),
             nth 0%N (camIndices_ ex_adapter) i = im & nth 0%N (keypointIndices_ ex_adapter) i = k]])).
Proof. split; [exact: ex_ctor | exact: (correspondence_count ex_ctor)]. Defined.

(** C4 witness: a RadialTangential and an Equidistant camera. *)
Lemma mixed_rig_throws_witness :
  (0 < numCameras ex_sys_mixed)%N /\ (1 < numCameras ex_sys_mixed)%N /\
  distortionType ex_sys_mixed 0 <> distortionType ex_sys_mixed 1 /\
  (LoopclosureNoncentralAbsoluteAdapter ex_points ex_matches ex_sys_mixed ex_frame =
     Throw (Exception "mixed frame types are not supported yet") /\
   ctor_body ex_points ex_matches ex_sys_mixed ex_frame empty =
     (Throw (Exception "mixed frame types are not supported yet"), empty)).
Proof.
  split; first by [].
  split; first by [].
  split; first by [].
  by apply: (@mixed_rig_throws _ _ _ _ 0 1).
Defined.


(** C7 witness: the example adapter. *)
Lemma sigma_angle_witness :
  LoopclosureNoncentralAbsoluteAdapter ex_points ex_matches ex_sys ex_frame = Ret ex_adapter /\
  (forall i, (i < getNumberCorrespondences ex_adapter)%N ->
  exists im k, [/\ (im < numCameras ex_sys)%N, (k < numKeypoints ex_frame im)%N,
    nth 0%N (camIndices_ ex_adapter) i = im, nth 0%N (keypointIndices_ ex_adapter) i = k &
    getSigmaAngle ex_adapter i =
      sqrt 2 * (0.8 * getKeypointSize ex_frame im k / 12) ^ 2 / (focalLengthU (camera ex_frame im)) ^ 2]).
Proof. split; [exact: ex_ctor | exact: (sigma_angle ex_ctor)]. Defined.

(** C10 witness: the example adapter. *)
Lemma adapter_invariant_witness :
  LoopclosureNoncentralAbsoluteAdapter ex_points ex_matches ex_sys ex_frame = Ret ex_adapter /\
  (let n := getNumberCorrespondences ex_adapter in
  [/\ size (points_ ex_adapter) = n, size (bearingVectors_ ex_adapter) = n,
      size (sigmaAngles_ ex_adapter) = n,
      size (camIndices_ ex_adapter) = n & size (keypointIndices_ ex_adapter) = n] /\
  size (camOffsets_ ex_adapter) = numCameras ex_sys /\
  size (camRotations_ ex_adapter) = numCameras ex_sys /\
  (forall i, (i < n)%N ->
     squaredNorm3 (getBearingVector ex_adapter i) = 1 /\
     (nth 0%N (camIndices_ ex_adapter) i < numCameras ex_sys)%N)).
Proof. split; [exact: ex_ctor | exact: (adapter_invariant ex_ctor)]. Defined.



End AdapterWitnesses.

Module RelativePoseErrorWitnesses.
Import Kinematics KinematicsFacts RelativePoseError RelativePoseErrorFacts SetInformationFacts Examples.
Local Open Scope ring_scope.

Lemma ex_sqn : squaredNorm (Quaterniond 1 0 0 0) = 1.
Proof. rewrite /squaredNorm /=; ring_R; ring. Qed.

(** C1 counterexample: the zero information matrix is not positive definite
    and its LLT reports NumericalIssue, yet the constructor returns an error
    term whose square-root information is the failed factor, and Evaluate
    whitens with it. *)
Lemma setInformation_non_posdef_counterexample :
  ~ posdef (0 : 'M[R]_6) /\
  Eigen.info (Eigen.compute (0 : 'M[R]_6)) = Eigen.NumericalIssue /\
  make 0 ex_T_AB = Ret (RelativePoseError_ ex_T_AB 0 (Eigen.inverse 0)
                                          (Eigen.matrixL (Eigen.compute (0 : 'M[R]_6)))^T) /\
  (forall parameters,
     Evaluate (RelativePoseError_ ex_T_AB 0 (Eigen.inverse 0)
                                  (Eigen.matrixL (Eigen.compute (0 : 'M[R]_6)))^T) parameters =
     (true, (Eigen.matrixL (Eigen.compute (0 : 'M[R]_6)))^T *m
            error_of (RelativePoseError_ ex_T_AB 0 (Eigen.inverse 0)
                                         (Eigen.matrixL (Eigen.compute (0 : 'M[R]_6)))^T) parameters)).
Proof.
  split; first exact: not_posdef_0.
  split; first exact: info_compute_0.
  by [].
Qed.

(** C2 witness: identity information, identity measurement, identity poses. *)
Lemma residual_zero_iff_witness :
  (1%:M : 'M[R]_6)^T = 1%:M /\ posdef (1%:M : 'M[R]_6) /\ squaredNorm (q ex_T_AB) = 1 /\
  Rlt 0 (squaredNorm (Quaterniond (ex_parameters 0%N 6%N) (ex_parameters 0%N 3%N)
                                  (ex_parameters 0%N 4%N) (ex_parameters 0%N 5%N))) /\
  Rlt 0 (squaredNorm (Quaterniond (ex_parameters 1%N 6%N) (ex_parameters 1%N 3%N)
                                  (ex_parameters 1%N 4%N) (ex_parameters 1%N 5%N))) /\
  make 1%:M ex_T_AB = Ret ex_error /\
  (let T_est := tmul (tinverse (pose_of ex_parameters 0%N)) (pose_of ex_parameters 1%N) in
   (Evaluate ex_error ex_parameters).1 = true /\
   ((Evaluate ex_error ex_parameters).2 = 0 <->
    r T_est = r ex_T_AB /\ (q T_est = q ex_T_AB \/ q T_est = qscale (-1) (q ex_T_AB)))).
Proof.
  have h1 : (1%:M : 'M[R]_6)^T = 1%:M by rewrite trmx1.
  have h2 : posdef (1%:M : 'M[R]_6) by exact: posdef_1.
  have h3 : Rlt 0 (squaredNorm (Quaterniond 1 0 0 0)) by rewrite ex_sqn; exact: Rlt_0_1.
  have h4 : make 1%:M ex_T_AB = Ret ex_error by [].
  split; first exact: h1.
  split; first exact: h2.
  split; first exact: ex_sqn.
  split; first exact: h3.
  split; first exact: h3.
  split; first exact: h4.
  exact: (@residual_zero_iff 1%:M ex_T_AB ex_error ex_parameters h1 h2 ex_sqn h3 h3 h4).
Defined.

(** C6 witness: the identity information matrix. *)
Lemma setInformation_spd_witness :
  (1%:M : 'M[R]_6)^T = 1%:M /\ posdef (1%:M : 'M[R]_6) /\
  (let s' := snd (setInformation 1%:M uninit) in
   [/\ information_ s' = 1%:M, 1%:M *m covariance_ s' = 1%:M, covariance_ s' *m 1%:M = 1%:M
     & (squareRootInformation_ s')^T *m squareRootInformation_ s' = 1%:M]).
Proof.
  have h1 : (1%:M : 'M[R]_6)^T = 1%:M by rewrite trmx1.
  have h2 : posdef (1%:M : 'M[R]_6) by exact: posdef_1.
  split; first exact: h1.
  split; first exact: h2.
  exact: (setInformation_spd uninit h1 h2).
Defined.

(** Witness for the LLT status of setInformation: the zero matrix. *)
Lemma setInformation_result_witness :
  (0 : 'M[R]_6)^T = 0 /\
  setInformation 0 uninit =
    (Ret tt, RelativePoseError_ (T_AB_ uninit) 0 (Eigen.inverse 0)
                                (Eigen.matrixL (Eigen.compute (0 : 'M[R]_6)))^T) /\
  (Eigen.info (Eigen.compute (0 : 'M[R]_6)) = Eigen.NumericalIssue <-> ~ posdef (0 : 'M[R]_6)).
Proof.
  have h0 : (0 : 'M[R]_6)^T = 0 by rewrite trmx0.
  have [A B] := setInformation_result (0 : 'M[R]_6) uninit.
  split; first exact: h0.
  split; first exact: A.
  exact: (B h0).
Defined.

End RelativePoseErrorWitnesses.

Module AdapterMore.
Import Kinematics Adapter AdapterSpec AdapterFacts.
Local Open Scope R_scope.

Definition ekey (e : Entry) : nat * nat := (e_cam e, e_kp e).

Definition key_lt (p1 p2 : nat * nat) : bool :=
  (p1.1 < p2.1)%N || ((p1.1 == p2.1) && (p1.2 < p2.2)%N).

Lemma iota_pairwise i n : pairwise ltn (iota i n).
Proof. by rewrite -sorted_pairwise ?iota_ltn_sorted //; exact: ltn_trans. Qed.

Lemma kp_run_pairwise points matches frameB im fu ks es :
  pairwise ltn ks -> kp_run points matches frameB im fu ks = Some es ->
  pairwise key_lt (map ekey es) /\ all (fun p => (p.1 == im) && (p.2 \in ks)) (map ekey es).
Proof.
  elim: ks es => [|k ks IH] es /=; first by move=> _ [<-].
  move=> /andP [hk hp].
  case S: (kp_status _ _ _ _ _) => [| |hp'] //.
  - move=> /(IH _ hp) [h1 h2]; split => //.
    apply/allP => e /(allP h2) /andP [-> he]; by rewrite in_cons he orbT.
  - case E: (kp_run _ _ _ _ _ _) => [es'|] // [<-].
    have [h1 h2] := IH _ hp E.
    split.
    + rewrite /= h1 andbT; apply/allP => e /(allP h2) /andP [/eqP he hk'].
      by rewrite /key_lt /= he eqxx ltnn /=; exact: (allP hk _ hk').
    + rewrite /= eqxx in_cons eqxx /=; apply/allP => e /(allP h2) /andP [-> he].
      by rewrite in_cons he orbT.
Qed.

Lemma cams_run_pairwise points matches frameB ims E :
  pairwise ltn ims -> cams_run points matches frameB ims = Some E ->
  pairwise key_lt (map ekey E) /\ all (fun p => p.1 \in ims) (map ekey E).
Proof.
  elim: ims E => [|im ims IH] E /=; first by move=> _ [<-].
  move=> /andP [him hp]; rewrite /cam_run.
  case E1: (kp_run _ _ _ _ _ _) => [es|] //.
  case E2: (cams_run _ _ _ _) => [es'|] // [<-].
  have [p1 a1] := kp_run_pairwise (iota_pairwise _ _) E1.
  have [p2 a2] := IH _ hp E2.
  rewrite map_cat pairwise_cat p1 p2; split.
  - rewrite !andbT; apply/allrelP => e1 e2 /(allP a1) /andP [/eqP h1 _] /(allP a2) h2.
    by rewrite /key_lt h1; apply/orP; left; exact: (allP him _ h2).
  - rewrite all_cat; apply/andP; split.
    + apply/allP => e /(allP a1) /andP [/eqP -> _]; by rewrite in_cons eqxx.
    + apply/allP => e /(allP a2) he; by rewrite in_cons he orbT.
Qed.

Lemma kp_status_ext points1 points2 matches1 matches2 frameB im k :
  matches1 (frameId frameB, im, k) = matches2 (frameId frameB, im, k) ->
  (forall lmId, matches1 (frameId frameB, im, k) = Some lmId -> lmId <> 0%N ->
     points1 lmId = points2 lmId) ->
  kp_status points1 matches1 frameB im k = kp_status points2 matches2 frameB im k.
Proof.
  rewrite /kp_status => <- Hp.
  case E: (matches1 _) => [lmId|] //.
  case: eqP => [// | l0].
  by rewrite (Hp lmId E l0).
Qed.

Lemma kp_run_ext points1 points2 matches1 matches2 frameB im fu ks :
  (forall k, k \in ks ->
     kp_status points1 matches1 frameB im k = kp_status points2 matches2 frameB im k) ->
  kp_run points1 matches1 frameB im fu ks = kp_run points2 matches2 frameB im fu ks.
Proof.
  elim: ks => [|k ks IH] //= H.
  rewrite (H k (mem_head _ _)) IH // => k' hk'.
  by apply: H; rewrite in_cons hk' orbT.
Qed.

Lemma cams_run_ext points1 points2 matches1 matches2 frameB ims :
  (forall im k, im \in ims -> (k < numKeypoints frameB im)%N ->
     kp_status points1 matches1 frameB im k = kp_status points2 matches2 frameB im k) ->
  cams_run points1 matches1 frameB ims = cams_run points2 matches2 frameB ims.
Proof.
  elim: ims => [|im ims IH] //= H.
  rewrite /cam_run.
  have -> : kp_run points1 matches1 frameB im (focalLengthU (camera frameB im))
              (iota 0 (numKeypoints frameB im)) =
            kp_run points2 matches2 frameB im (focalLengthU (camera frameB im))
              (iota 0 (numKeypoints frameB im)).
    apply: kp_run_ext => k; rewrite mem_iota add0n => hk.
    by apply: H => //; exact: mem_head.
  have -> : cams_run points1 matches1 frameB ims = cams_run points2 matches2 frameB ims.
    by apply: IH => im' k hi hk; apply: H => //; rewrite in_cons hi orbT.
  by [].
Qed.

(** X2: after a successful construction, camOffsets_[im] and camRotations_[im] hold the extrinsics T_SC of camera im, and getCamOffset(i), getCamRotation(i) return those of the camera of correspondence i. *)
Theorem cam_extrinsics points matches sys frameB a :
  LoopclosureNoncentralAbsoluteAdapter points matches sys frameB = Ret a ->
  (forall im, (im < numCameras sys)%N ->
     nth zero3 (camOffsets_ a) im = T_SC_r (camera frameB im) /\
     nth zero33 (camRotations_ a) im = T_SC_C (camera frameB im)) /\
  (forall i, (i < getNumberCorrespondences a)%N ->
     let im := nth 0%N (camIndices_ a) i in
     getCamOffset a i = T_SC_r (camera frameB im) /\
     getCamRotation a i = T_SC_C (camera frameB im)).
Proof.
  move=> H; have [_ _ [E [HE Ha]]] := ctor_Ret H.
  have Hc : forall im, (im < numCameras sys)%N ->
     nth zero3 (camOffsets_ a) im = T_SC_r (camera frameB im) /\
     nth zero33 (camRotations_ a) im = T_SC_C (camera frameB im).
    move=> im hi; rewrite Ha /=.
    by rewrite !(nth_map 0%N) ?size_iota // nth_iota.
  split => // i /(ctor_Ret_entries H) [im [k [hp [h1 [_ [_ [_ [_ [_ [h6 _]]]]]]]]]].
  by rewrite /getCamOffset /getCamRotation /= h6; exact: Hc.
Qed.

(** X3: the correspondences of a successful construction are ordered by camera index, then by keypoint index, with no index pair repeated. *)
Theorem correspondence_order points matches sys frameB a :
  LoopclosureNoncentralAbsoluteAdapter points matches sys frameB = Ret a ->
  forall i j, (i < j)%N -> (j < getNumberCorrespondences a)%N ->
  (nth 0%N (camIndices_ a) i < nth 0%N (camIndices_ a) j)%N \/
  (nth 0%N (camIndices_ a) i = nth 0%N (camIndices_ a) j /\
   (nth 0%N (keypointIndices_ a) i < nth 0%N (keypointIndices_ a) j)%N).
Proof.
  move=> /ctor_Ret [_ _ [E [HE ->]]] i j hij.
  rewrite /getNumberCorrespondences /= size_map => hj.
  have [P _] := cams_run_pairwise (iota_pairwise _ _) HE.
  have hi : (i < size E)%N by exact: ltn_trans hij hj.
  have := pairwiseP (0%N, 0%N) P i j; rewrite size_map => /(_ hi hj hij).
  set d := Entry_ zero3 zero3 0 0 0.
  rewrite !(nth_map d) // /key_lt /ekey /=.
  case/orP => [-> | /andP [/eqP -> ->]]; [by left | by right].
Qed.

(** X4: the constructor reads the match map only at the keypoints of frame B and the landmark map only at the nonzero landmark ids matched there. *)
Theorem reads_frame_matches points1 points2 matches1 matches2 sys frameB :
  (forall im k, (im < numCameras sys)%N -> (k < numKeypoints frameB im)%N ->
     matches1 (frameId frameB, im, k) = matches2 (frameId frameB, im, k) /\
     (forall lmId, matches1 (frameId frameB, im, k) = Some lmId -> lmId <> 0%N ->
        points1 lmId = points2 lmId)) ->
  LoopclosureNoncentralAbsoluteAdapter points1 matches1 sys frameB =
  LoopclosureNoncentralAbsoluteAdapter points2 matches2 sys frameB.
Proof.
  move=> H; rewrite !ctor_spec /ctor_outcome.
  rewrite (cams_run_ext (points2 := points2) (matches2 := matches2)) //.
  move=> im k; rewrite mem_iota add0n => hi hk.
  by have [h1 h2] := H im k hi hk; apply: kp_status_ext.
Qed.

(** X10: after a successful construction the per-correspondence arrays (points_,
    bearingVectors_, sigmaAngles_, camIndices_, keypointIndices_) all have
    getNumberCorrespondences() entries and camOffsets_, camRotations_ one per camera; so the
    assert of getPoint on bearingVectors_.size() bounds points_, and the camera index and
    keypoint index of every correspondence are in range. *)
Theorem adapter_sizes points matches sys frameB a :
  LoopclosureNoncentralAbsoluteAdapter points matches sys frameB = Ret a ->
  [/\ size (camOffsets_ a) = numCameras sys /\ size (camRotations_ a) = numCameras sys,
      size (bearingVectors_ a) = getNumberCorrespondences a /\
      size (sigmaAngles_ a) = getNumberCorrespondences a,
      size (camIndices_ a) = getNumberCorrespondences a /\
      size (keypointIndices_ a) = getNumberCorrespondences a &
      forall i, (i < getNumberCorrespondences a)%N ->
        (nth 0%N (camIndices_ a) i < size (camOffsets_ a))%N /\
        (nth 0%N (keypointIndices_ a) i < numKeypoints frameB (nth 0%N (camIndices_ a) i))%N].
Proof.
  move=> H; have [_ _ [E [_ Ha]]] := ctor_Ret H.
  have Hs : size (camOffsets_ a) = numCameras sys by rewrite Ha /= size_map size_iota.
  split; try by rewrite Ha /getNumberCorrespondences /= !size_map ?size_iota.
  move=> i /(ctor_Ret_entries H) [im [k [hp [h1 [h2 [_ [_ [_ [_ [h6 h7]]]]]]]]]].
  by rewrite Hs h6 h7.
Qed.

End AdapterMore.

Module VarianceFacts.
Import Kinematics KinematicsFacts RelativePoseError.

Section Diagonal.
Variable n : nat.
Variable d : nat -> R.

(** The state of llt_loop on a diagonal matrix after k columns. *)
Definition DInv (k : nat) (m : Eigen.mat) : Prop :=
  forall i j, m i j = if i == j then (if (i < k)%N then sqrt (d i) else d i) else 0.

Lemma dinv_step k m :
  (k < n)%N -> Rlt 0 (d k) -> DInv k m -> exists m', Eigen.llt_step n k m = Some m' /\ DInv k.+1 m'.
Proof.
  move=> kn dk H.
  have S : forall i, \sum_(0 <= p < k) m i p * m k p = 0.
    move=> i; rewrite big_nat_cond big1 // => p /andP [/andP [_ hp] _].
    by rewrite (H k p) (gtn_eqF hp) mulr0.
  rewrite /Eigen.llt_step S (H k k) eqxx ltnn subr0.
  destruct (Rle_dec _ _) as [h | hx]; first by exfalso; move: h; to_R; lra.
  eexists; split; first reflexivity.
  move=> i j; case: eqP => [-> | jk].
  - case: eqP => [-> | ik]; first by rewrite ltnSn.
    have ik' : (i == k) = false by apply/eqP.
    case: ifP => _; last by rewrite H ik'.
    by rewrite H ik' S subr0; to_R; rewrite /Rdiv Rmult_0_l.
  - rewrite H ltnS; case: eqP => [ei | //]; subst j.
    by move/eqP: jk; case: ltngtP.
Qed.

Lemma dinv_loop fuel k m :
  (k + fuel = n)%N -> (forall i, (i < n)%N -> Rlt 0 (d i)) -> DInv k m ->
  exists m', Eigen.llt_loop n k fuel m = (m', None) /\ DInv n m'.
Proof.
  elim: fuel k m => [|fuel IH] k m /=.
  - by rewrite addn0 => <- _ H; exists m.
  - move=> hk hd H.
    have kn : (k < n)%N by rewrite -hk -addSnnS leq_addr.
    have [m' [-> H']] := dinv_step kn (hd k kn) H.
    by apply: IH => //; rewrite addSnnS.
Qed.

End Diagonal.

Lemma compute_diag n (D : 'M[R]_n) :
  (forall i j : 'I_n, i != j -> D i j = 0) -> (forall i, Rlt 0 (D i i)) ->
  Eigen.info (Eigen.compute D) = Eigen.Success /\
  Eigen.matrixL (Eigen.compute D) = \matrix_(i, j) if i == j then sqrt (D i i) else 0.
Proof.
  move=> Hoff Hpos.
  pose d i := Eigen.of_mx D i i.
  have H0 : DInv d 0 (Eigen.of_mx D).
    move=> i j; rewrite ltn0 /d; case: eqP => [-> // | ij].
    rewrite /Eigen.of_mx; case: insubP => [i' _ ei|] //; case: insubP => [j' _ ej|] //.
    by apply: Hoff; apply/eqP => e; apply: ij; rewrite -ei -ej e.
  have hd : forall i, (i < n)%N -> Rlt 0 (d i).
    by move=> i hi; rewrite /d (of_mx_ord D (Ordinal hi) (Ordinal hi)).
  rewrite /Eigen.info /Eigen.matrixL /Eigen.compute /Eigen.llt_unblocked.
  have [m' [-> H]] := dinv_loop (add0n n) hd H0.
  split => //; apply/matrixP => i j; rewrite !mxE H ltn_ord /d (of_mx_ord D i i).
  case: (i =P j) => [-> | ij]; first by rewrite leqnn eqxx.
  have -> : (nat_of_ord i == nat_of_ord j) = false by apply/eqP => e; apply: ij; apply: val_inj.
  by case: ifP.
Qed.
Lemma sqrt_div1 x : sqrt (1 / x) = 1 / sqrt x.
Proof. rewrite divRE; to_R; rewrite /Rdiv !Rmult_1_l; exact: sqrt_inv. Qed.

Lemma invmx_right n (A B : 'M[R]_n) : A *m B = 1%:M -> invmx A = B.
Proof.
  move=> h; have [U _] := mulmx1_unit h.
  by rewrite -[invmx A]mulmx1 -h mulmxA mulVmx // mul1mx.
Qed.

Lemma make_variances_ok (tv rv : R) (T_AB : Transformation) :
  Rlt 0 tv -> Rlt 0 rv ->
  exists e, make_variances tv rv T_AB = Ret e /\
  [/\ T_AB_ e = T_AB, information_ e = variance_information tv rv,
      Eigen.info (Eigen.compute (variance_information tv rv)) = Eigen.Success,
      covariance_ e = \matrix_(i, j) (if i == j then (if (i < 3)%N then tv else rv) else 0) &
      squareRootInformation_ e =
        \matrix_(i, j) (if i == j then (if (i < 3)%N then 1 / sqrt tv else 1 / sqrt rv) else 0)].
Proof.
  move=> htv hrv.
  set VI := variance_information tv rv.
  have pos : forall i : 'I_6, Rlt 0 (VI i i).
    move=> i; rewrite /VI /variance_information mxE eqxx.
    case: ifP => _; rewrite divRE; to_R; rewrite /Rdiv Rmult_1_l; exact: Rinv_0_lt_compat.
  have off : forall i j : 'I_6, i != j -> VI i j = 0.
    by move=> i j /negbTE ij; rewrite /VI /variance_information mxE ij.
  have [S LE] := compute_diag off pos.
  eexists; split; first reflexivity.
  split => //.
  - rewrite /Eigen.inverse; apply: invmx_right; apply/matrixP => i j.
    rewrite mxE (bigD1 i) //= big1 ?addr0.
      by move=> l /negbTE li; rewrite /VI /variance_information mxE eq_sym li mul0r.
    rewrite /VI /variance_information !mxE eqxx.
    case: (i =P j) => [_ | _] /=; last by rewrite mulr0.
    by case: ifP => _; rewrite !divRE mulr1n; to_R; field; lra.
  - cbv zeta; rewrite [squareRootInformation_ _]/= -/VI LE; apply/matrixP => i j; rewrite !mxE.
    case: (i =P j) => [-> | ij]; last by rewrite (introF eqP (nesym ij)).
    rewrite !eqxx.
    by case: ifP => _; rewrite sqrt_div1.
Qed.

(** X5: with positive variances the variance constructor stores T_AB, a diagonal
    information matrix whose LLT succeeds, the covariance diag(tv, tv, tv, rv, rv, rv)
    and the square-root information diag(1/sqrt tv, ..., 1/sqrt rv). *)
Theorem make_variances_spec (tv rv : R) (T_AB : Transformation) :
  Rlt 0 tv -> Rlt 0 rv ->
  exists e, make_variances tv rv T_AB = Ret e /\
  [/\ T_AB_ e = T_AB, information_ e = variance_information tv rv,
      Eigen.info (Eigen.compute (variance_information tv rv)) = Eigen.Success,
      covariance_ e = \matrix_(i, j) (if i == j then (if (i < 3)%N then tv else rv) else 0) &
      squareRootInformation_ e =
        \matrix_(i, j) (if i == j then (if (i < 3)%N then 1 / sqrt tv else 1 / sqrt rv) else 0)].
Proof. exact: make_variances_ok. Qed.

(** X6: for an error term built from positive variances, Evaluate returns true and
    residual i is error i divided by sqrt tv (i < 3) or sqrt rv (i >= 3). *)
Theorem variance_residual (tv rv : R) (T_AB : Transformation) (e : RelativePoseError) :
  Rlt 0 tv -> Rlt 0 rv -> make_variances tv rv T_AB = Ret e ->
  forall parameters (i : 'I_6),
    (Evaluate e parameters).1 = true /\
    (Evaluate e parameters).2 i ord0 =
      error_of e parameters i ord0 / sqrt (if (i < 3)%N then tv else rv).
Proof.
  move=> htv hrv H parameters i.
  have [e' [H' [_ _ _ _ Hs]]] := make_variances_ok T_AB htv hrv.
  rewrite H in H'; case: H' => ->.
  split => //; rewrite /Evaluate /EvaluateWithMinimalJacobians /= Hs.
  rewrite mxE (bigD1 i) //= big1 ?addr0.
    by move=> l /negbTE li; rewrite mxE eq_sym li mul0r.
  rewrite mxE eqxx; case: ifP => _; rewrite !divRE; to_R; rewrite /Rdiv; ring.
Qed.

Lemma variance_information_sym tv rv : (variance_information tv rv)^T = variance_information tv rv.
Proof.
  apply/matrixP => i j; rewrite !mxE.
  case: (i =P j) => [-> | ij]; first by rewrite eqxx.
  by rewrite (introF eqP (nesym ij)).
Qed.

Lemma ecol_neq0 n (j : 'I_n) : ecol j != 0.
Proof.
  apply/eqP => h; have := congr1 (fun M : 'cV[R]_n => M j ord0) h.
  rewrite /ecol !mxE !eqxx /=; to_R; exact: R1_neq_R0.
Qed.

(** X7: with a negative translation or rotation variance the variance constructor still returns, its information matrix has an LLT that reports NumericalIssue, and the square-root information is the transposed failed factor. *)
Theorem make_variances_negative (tv rv : R) (T_AB : Transformation) :
  Rlt tv 0 \/ Rlt rv 0 ->
  exists e, make_variances tv rv T_AB = Ret e /\
    Eigen.info (Eigen.compute (information_ e)) = Eigen.NumericalIssue /\
    squareRootInformation_ e = (Eigen.matrixL (Eigen.compute (information_ e)))^T.
Proof.
  move=> hneg.
  set VI := variance_information tv rv.
  have NP : ~ posdef VI.
    have neg : forall j : 'I_6, Rlt (VI j j) 0 -> ~ posdef VI.
      move=> j hj PD; have := PD _ (ecol_neq0 j); rewrite quad_delta => h; lra.
    case: hneg => h.
    - apply: (neg (@Ordinal 6 0 isT)); rewrite /VI /variance_information mxE eqxx /=.
      rewrite divRE; to_R; rewrite /Rdiv Rmult_1_l; exact: Rinv_lt_0_compat.
    - apply: (neg (@Ordinal 6 3 isT)); rewrite /VI /variance_information mxE eqxx /=.
      rewrite divRE; to_R; rewrite /Rdiv Rmult_1_l; exact: Rinv_lt_0_compat.
  eexists; split; first reflexivity.
  split => //=; case E: (Eigen.info _) => //; exfalso; apply: NP.
  exact: success_posdef (variance_information_sym tv rv) E.
Qed.

End VarianceFacts.

Module SignFacts.
Import Kinematics KinematicsFacts RelativePoseError.

Definition negate_quaternion (parameters : nat -> nat -> R) (b : nat) : nat -> nat -> R :=
  fun b' i => if (b' == b) && (3 <= i <= 6)%N then - parameters b' i else parameters b' i.

Lemma normalized_neg q : normalized (qscale (-1) q) = qscale (-1) (normalized q).
Proof.
  rewrite /normalized squaredNorm_qscale.
  have -> : -1 * -1 * squaredNorm q = squaredNorm q by ring_R; ring.
  destruct (Rlt_dec _ _) as [h|h] => //.
  by apply: quat_eq; rewrite /qscale /=; ring_R; ring.
Qed.

Lemma rot_neg q : toRotationMatrix (qscale (-1) q) = toRotationMatrix q.
Proof.
  apply/matrixP => i j; rewrite !mxE /rot_entry /qscale /=.
  by case: i => [[|[|[|i]]] Hi]; case: j => [[|[|[|j]]] Hj] //=; ring_R; ring.
Qed.

Lemma qinverse_neg q : qinverse (qscale (-1) q) = qscale (-1) (qinverse q).
Proof.
  rewrite /qinverse squaredNorm_qscale.
  have -> : -1 * -1 * squaredNorm q = squaredNorm q by ring_R; ring.
  destruct (Rlt_dec _ _) as [h|h]; apply: quat_eq; rewrite /qscale /conjugate /=; ring_R; ring.
Qed.

Lemma qmul_neg_l a b : qmul (qscale (-1) a) b = qscale (-1) (qmul a b).
Proof. by apply: quat_eq; rewrite /qmul /qscale /=; ring_R; ring. Qed.

Lemma qmul_neg_r a b : qmul a (qscale (-1) b) = qscale (-1) (qmul a b).
Proof. by apply: quat_eq; rewrite /qmul /qscale /=; ring_R; ring. Qed.

Lemma qvec_neg q : qvec (qscale (-1) q) = - qvec q.
Proof.
  apply/matrixP => i j; rewrite !mxE /qscale /=.
  by case: i => [[|[|[|i]]] Hi] //=; ring_R; ring.
Qed.

Lemma pose_of_neg parameters b :
  pose_of (negate_quaternion parameters b) b =
  Transformation_ (r (pose_of parameters b)) (qscale (-1) (q (pose_of parameters b))).
Proof.
  rewrite /pose_of /negate_quaternion /= eqxx /= -normalized_neg.
  congr (Transformation_ _ (normalized _)).
  by apply: quat_eq; rewrite /Quaterniond /qscale /=; ring_R; ring.
Qed.

Lemma pose_of_other parameters b b' :
  b' != b -> pose_of (negate_quaternion parameters b) b' = pose_of parameters b'.
Proof. by move=> /negbTE h; rewrite /pose_of /negate_quaternion h. Qed.

Lemma tinverse_neg rr qq :
  tinverse (Transformation_ rr (qscale (-1) qq)) =
  Transformation_ (r (tinverse (Transformation_ rr qq))) (qscale (-1) (q (tinverse (Transformation_ rr qq)))).
Proof. by rewrite /tinverse /C /= rot_neg qinverse_neg. Qed.

Lemma tmul_neg_l rr qq T2 :
  tmul (Transformation_ rr (qscale (-1) qq)) T2 =
  Transformation_ (r (tmul (Transformation_ rr qq) T2)) (qscale (-1) (q (tmul (Transformation_ rr qq) T2))).
Proof. by rewrite /tmul /C /= rot_neg qmul_neg_l. Qed.

Lemma tmul_neg_r T1 rr qq :
  tmul T1 (Transformation_ rr (qscale (-1) qq)) =
  Transformation_ (r (tmul T1 (Transformation_ rr qq))) (qscale (-1) (q (tmul T1 (Transformation_ rr qq)))).
Proof. by rewrite /tmul /= qmul_neg_r. Qed.

Lemma error_neg e (TA TB : Transformation) :
  let T_AB := tmul (tinverse TA) TB in
  col_mx (r (T_AB_ e) - r T_AB) (2 *: qvec (qmul (q (T_AB_ e)) (qinverse (qscale (-1) (q T_AB))))) =
  col_mx (r (T_AB_ e) - r T_AB) (- (2 *: qvec (qmul (q (T_AB_ e)) (qinverse (q T_AB))))).
Proof. by rewrite /= qinverse_neg qmul_neg_r qvec_neg scalerN. Qed.

(** X8: negating the four quaternion parameters of pose A or of pose B keeps the translation part of the error and negates its rotation part. *)
Theorem error_quaternion_sign (e : RelativePoseError) (parameters : nat -> nat -> R) :
  let err := error_of e parameters in
  (@usubmx R 3 3 1 (error_of e (negate_quaternion parameters 0)) = @usubmx R 3 3 1 err /\
   @dsubmx R 3 3 1 (error_of e (negate_quaternion parameters 0)) = - @dsubmx R 3 3 1 err) /\
  (@usubmx R 3 3 1 (error_of e (negate_quaternion parameters 1)) = @usubmx R 3 3 1 err /\
   @dsubmx R 3 3 1 (error_of e (negate_quaternion parameters 1)) = - @dsubmx R 3 3 1 err).
Proof.
  rewrite /error_of !pose_of_neg !pose_of_other //.
  case: (pose_of parameters 0) => rA qA; case: (pose_of parameters 1) => rB qB.
  rewrite tinverse_neg tmul_neg_l tmul_neg_r.
  rewrite -[Transformation_ _ (q (tinverse _))]/(tinverse (Transformation_ rA qA)).
  by rewrite !error_neg !col_mxKu !col_mxKd.
Qed.

End SignFacts.

Module GaugeFacts.
Import Kinematics KinematicsFacts RelativePoseError.

Definition rotH_entry (q : Quaternion) (i j : nat) : R :=
  let x := qx q in let y := qy q in let z := qz q in let w := qw q in
  match i, j with
  | 0, 0 => w * w + x * x - y * y - z * z | 0, 1 => 2 * (x * y - w * z) | 0, _ => 2 * (x * z + w * y)
  | 1, 0 => 2 * (x * y + w * z) | 1, 1 => w * w - x * x + y * y - z * z | 1, _ => 2 * (y * z - w * x)
  | _, 0 => 2 * (x * z - w * y) | _, 1 => 2 * (y * z + w * x) | _, _ => w * w - x * x - y * y + z * z
  end.

Definition rotH (q : Quaternion) : 'M[R]_3 := \matrix_(i, j) rotH_entry q i j.

Lemma rotH_mul a b : rotH (qmul a b) = rotH a *m rotH b.
Proof.
  apply/matrixP => i j; rewrite !mxE !big_ord_recr big_ord0 /= !mxE /rotH_entry /qmul /=.
  by case: i => [[|[|[|i]]] Hi]; case: j => [[|[|[|j]]] Hj] //=; ring_R; ring.
Qed.

Lemma rot_rotH q : squaredNorm q = 1 -> toRotationMatrix q = rotH q.
Proof.
  move=> hq; apply/matrixP => i j; rewrite !mxE /rot_entry /rotH_entry.
  move: hq; rewrite /squaredNorm => hq.
  case: i => [[|[|[|i]]] Hi]; case: j => [[|[|[|j]]] Hj] //=; ring_R; rewrite ?mulr2n; to_R; try ring;
  move: hq; to_R => hq; rewrite ?mulr2n; to_R; nra.
Qed.

Lemma rot_conj q : toRotationMatrix (conjugate q) = (toRotationMatrix q)^T.
Proof.
  apply/matrixP => i j; rewrite !mxE /rot_entry /conjugate /=.
  by case: i => [[|[|[|i]]] Hi]; case: j => [[|[|[|j]]] Hj] //=; ring_R; ring.
Qed.

Lemma rot_mul a b :
  squaredNorm a = 1 -> squaredNorm b = 1 ->
  toRotationMatrix (qmul a b) = toRotationMatrix a *m toRotationMatrix b.
Proof.
  move=> ha hb.
  have hab : squaredNorm (qmul a b) = 1 by rewrite squaredNorm_qmul ha hb; ring_R; ring.
  by rewrite !rot_rotH // rotH_mul.
Qed.

Lemma rot_orth q : squaredNorm q = 1 -> (toRotationMatrix q)^T *m toRotationMatrix q = 1%:M.
Proof.
  move=> hq; rewrite -rot_conj -rot_mul ?squaredNorm_conjugate // qmul_conj_l hq.
  apply/matrixP => i j; rewrite !mxE /rot_entry /=.
  by case: i => [[|[|[|i]]] Hi]; case: j => [[|[|[|j]]] Hj] //=; ring_R; rewrite ?mulr1n ?mulr0n; to_R; ring.
Qed.

Lemma conjugate_qmul a b : conjugate (qmul a b) = qmul (conjugate b) (conjugate a).
Proof. by apply: quat_eq; rewrite /qmul /conjugate /=; ring_R; ring. Qed.

Lemma qscale1 a : qscale 1 a = a.
Proof. by apply: quat_eq; rewrite /qscale /=; ring_R; ring. Qed.

Lemma tinverse_tmul_gauge T A B :
  squaredNorm (q T) = 1 -> squaredNorm (q A) = 1 ->
  tmul (tinverse (tmul T A)) (tmul T B) = tmul (tinverse A) B.
Proof.
  move=> hT hA.
  have hTA : squaredNorm (qmul (q T) (q A)) = 1 by rewrite squaredNorm_qmul hT hA; ring_R; ring.
  rewrite /tmul /tinverse /C /=.
  rewrite !qinverse_unit // conjugate_qmul.
  congr Transformation_.
    rewrite -conjugate_qmul !rot_conj rot_mul // -!mulmxBr.
    rewrite opprD addrACA subrr addr0 -mulmxBr trmx_mul mulmxA -[_ *m _^T *m _]mulmxA.
    by rewrite rot_orth // mulmx1.
  - by rewrite qmulA -[qmul (conjugate (q T)) _]qmulA qmul_conj_l hT qmul_scalar_l qscale1.
Qed.

(** X9: moving both poses by the same rigid transformation T (unit quaternion) leaves the error and Evaluate unchanged, provided the quaternion of pose A is nonzero. *)
Theorem error_gauge_invariant (e : RelativePoseError) (T : Transformation)
    (parameters parameters' : nat -> nat -> R) :
  squaredNorm (q T) = 1 ->
  Rlt 0 (squaredNorm (Quaterniond (parameters 0%N 6%N) (parameters 0%N 3%N)
                                  (parameters 0%N 4%N) (parameters 0%N 5%N))) ->
  pose_of parameters' 0 = tmul T (pose_of parameters 0) ->
  pose_of parameters' 1 = tmul T (pose_of parameters 1) ->
  error_of e parameters' = error_of e parameters /\ Evaluate e parameters' = Evaluate e parameters.
Proof.
  move=> hT hA H0 H1.
  have E : error_of e parameters' = error_of e parameters.
    rewrite /error_of H0 H1 tinverse_tmul_gauge //.
    exact: squaredNorm_normalized.
  by split => //; rewrite /Evaluate /EvaluateWithMinimalJacobians E.
Qed.

End GaugeFacts.

Module ScaleFacts.
Import Kinematics KinematicsFacts RelativePoseError.

Definition scale_quaternion (parameters : nat -> nat -> R) (b : nat) (c : R) : nat -> nat -> R :=
  fun b' i => if (b' == b) && (3 <= i <= 6)%N then c * parameters b' i else parameters b' i.

Lemma squaredNorm_ge0 q : Rle 0 (squaredNorm q).
Proof. rewrite /squaredNorm; to_R; nra. Qed.

Lemma normalized_scale c q : Rlt 0 c -> normalized (qscale c q) = normalized q.
Proof.
  move=> hc; rewrite /normalized squaredNorm_qscale.
  have hz := squaredNorm_ge0 q.
  destruct (Rlt_dec 0 (squaredNorm q)) as [h | h].
  - have h' : Rlt 0 (c * c * squaredNorm q) by to_R; do 2 apply: Rmult_lt_0_compat => //.
    destruct (Rlt_dec _ _) as [_h | h2]; last by exfalso; apply: h2; exact: h'.
    have hs : sqrt (c * c * squaredNorm q) = c * sqrt (squaredNorm q).
      have e1 : sqrt (c * c) = c by apply: sqrt_square; lra.
      to_R; rewrite (sqrt_mult (c * c) (squaredNorm q)) ?e1 //; try nra; try lra.
    have hq : sqrt (squaredNorm q) <> 0 by apply: Rgt_not_eq; apply: sqrt_lt_R0.
    rewrite hs; apply: quat_eq; rewrite /qscale /=; to_R; field; split => //; lra.
  - have z0 : squaredNorm q = 0 by to_R; lra.
    have h' : ~ Rlt 0 (c * c * squaredNorm q) by rewrite z0; to_R; lra.
    destruct (Rlt_dec _ _) as [h2 | _h]; first by exfalso; exact: h' h2.
    move: z0; rewrite /squaredNorm; to_R => z0.
    apply: quat_eq; rewrite /qscale /=; to_R; nra.
Qed.

Lemma pose_of_scale parameters b b' c :
  Rlt 0 c -> pose_of (scale_quaternion parameters b c) b' = pose_of parameters b'.
Proof.
  move=> hc; rewrite /pose_of /scale_quaternion /=.
  case: (b' =P b) => [-> | _] //=.
  rewrite -[in RHS](normalized_scale _ hc); congr (Transformation_ _ (normalized _)).
  by apply: quat_eq; rewrite /Quaterniond /qscale /=; ring_R; ring.
Qed.

(** X11: multiplying the four quaternion parameters of one parameter block by a
    positive factor changes neither the error nor Evaluate: the quaternions are
    normalized before use. *)
Theorem error_quaternion_scale (e : RelativePoseError) (parameters : nat -> nat -> R) b c :
  Rlt 0 c ->
  error_of e (scale_quaternion parameters b c) = error_of e parameters /\
  Evaluate e (scale_quaternion parameters b c) = Evaluate e parameters.
Proof.
  move=> hc.
  have E : error_of e (scale_quaternion parameters b c) = error_of e parameters.
    by rewrite /error_of !pose_of_scale.
  by split => //; rewrite /Evaluate /EvaluateWithMinimalJacobians E.
Qed.

End ScaleFacts.

Module ExtraWitnesses.
Import Kinematics KinematicsFacts Adapter AdapterSpec AdapterFacts RelativePoseError Examples.
Import AdapterWitnesses AdapterMore VarianceFacts SignFacts ScaleFacts GaugeFacts.
Local Open Scope R_scope.

(** A frame with one camera observing two keypoints. *)
Definition ex_frame2 : MultiFrame :=
  MultiFrame_ 0 [:: FrameCamera_ 0 0 1 [:: Keypoint_ 12 false 0 0; Keypoint_ 12 false 0 0]].

Definition ex_adapter2 : Adapter :=
  mkstate ex_frame2 [:: 0%N] [:: entry ex_frame2 0 1 0 ex_hp; entry ex_frame2 0 1 1 ex_hp].

Lemma ex_status2 k : kp_status ex_points ex_matches ex_frame2 0 k = Accept ex_hp.
Proof. apply/kp_status_Accept; exists 1%N; repeat split => //; exact: ex_eps. Qed.

Lemma ex_ctor2 :
  LoopclosureNoncentralAbsoluteAdapter ex_points ex_matches ex_sys ex_frame2 = Ret ex_adapter2.
Proof. by rewrite ctor_spec /ctor_outcome /= /cam_run /= !ex_status2. Qed.

(** A landmark map holding only landmark 1, and a match map holding only the
    keypoint (0, 0, 0). *)
Definition ex_points1 : Points := fun l => if (l == 1)%N then Some ex_hp else None.
Definition ex_matches1 : Matches := fun kid => if kid == (0, 0, 0)%N then Some 1%N else None.

Lemma cam_extrinsics_witness :
  LoopclosureNoncentralAbsoluteAdapter ex_points ex_matches ex_sys ex_frame = Ret ex_adapter /\
  ((forall im, (im < numCameras ex_sys)%N ->
     nth zero3 (camOffsets_ ex_adapter) im = T_SC_r (camera ex_frame im) /\
     nth zero33 (camRotations_ ex_adapter) im = T_SC_C (camera ex_frame im)) /\
   (forall i, (i < getNumberCorrespondences ex_adapter)%N ->
     let im := nth 0%N (camIndices_ ex_adapter) i in
     getCamOffset ex_adapter i = T_SC_r (camera ex_frame im) /\
     getCamRotation ex_adapter i = T_SC_C (camera ex_frame im))).
Proof. split; [exact: ex_ctor | exact: (cam_extrinsics ex_ctor)]. Defined.

Lemma correspondence_order_witness :
  LoopclosureNoncentralAbsoluteAdapter ex_points ex_matches ex_sys ex_frame2 = Ret ex_adapter2 /\
  (0 < 1)%N /\ (1 < getNumberCorrespondences ex_adapter2)%N /\
  ((nth 0%N (camIndices_ ex_adapter2) 0 < nth 0%N (camIndices_ ex_adapter2) 1)%N \/
   (nth 0%N (camIndices_ ex_adapter2) 0 = nth 0%N (camIndices_ ex_adapter2) 1 /\
    (nth 0%N (keypointIndices_ ex_adapter2) 0 < nth 0%N (keypointIndices_ ex_adapter2) 1)%N)).
Proof.
  split; first exact: ex_ctor2.
  split; first by [].
  split; first by [].
  exact: (correspondence_order ex_ctor2 (i := 0%N) (j := 1%N)).
Defined.

Lemma reads_frame_matches_witness :
  (forall im k, (im < numCameras ex_sys)%N -> (k < numKeypoints ex_frame im)%N ->
     ex_matches (frameId ex_frame, im, k) = ex_matches1 (frameId ex_frame, im, k) /\
     (forall lmId, ex_matches (frameId ex_frame, im, k) = Some lmId -> lmId <> 0%N ->
        ex_points lmId = ex_points1 lmId)) /\
  LoopclosureNoncentralAbsoluteAdapter ex_points ex_matches ex_sys ex_frame =
  LoopclosureNoncentralAbsoluteAdapter ex_points1 ex_matches1 ex_sys ex_frame.
Proof.
  have H : forall im k, (im < numCameras ex_sys)%N -> (k < numKeypoints ex_frame im)%N ->
     ex_matches (frameId ex_frame, im, k) = ex_matches1 (frameId ex_frame, im, k) /\
     (forall lmId, ex_matches (frameId ex_frame, im, k) = Some lmId -> lmId <> 0%N ->
        ex_points lmId = ex_points1 lmId).
    move=> [|im] [|k] //= _ _; split => // lmId [<-] _; by [].
  split; first exact: H.
  exact: (reads_frame_matches H).
Defined.

Lemma make_variances_spec_witness :
  Rlt 0 1 /\ Rlt 0 1 /\
  exists e, make_variances 1 1 ex_T_AB = Ret e /\
  [/\ T_AB_ e = ex_T_AB, information_ e = variance_information 1 1,
      Eigen.info (Eigen.compute (variance_information 1 1)) = Eigen.Success,
      covariance_ e = \matrix_(i, j) (if i == j then (if (i < 3)%N then 1 else 1) else 0) &
      squareRootInformation_ e =
        \matrix_(i, j) (if i == j then (if (i < 3)%N then 1 / sqrt 1 else 1 / sqrt 1) else 0)].
Proof.
  have h : Rlt 0 1 by lra.
  split; first exact: h.
  split; first exact: h.
  exact: (make_variances_spec ex_T_AB h h).
Defined.

Lemma variance_residual_witness :
  Rlt 0 1 /\ Rlt 0 (1 / 2) /\ make_variances 1 (1 / 2) ex_T_AB =
    Ret (match make_variances 1 (1 / 2) ex_T_AB with Ret e => e | Throw _ => uninit end) /\
  forall parameters (i : 'I_6),
    (Evaluate (match make_variances 1 (1 / 2) ex_T_AB with Ret e => e | Throw _ => uninit end)
              parameters).1 = true /\
    (Evaluate (match make_variances 1 (1 / 2) ex_T_AB with Ret e => e | Throw _ => uninit end)
              parameters).2 i ord0 =
      error_of (match make_variances 1 (1 / 2) ex_T_AB with Ret e => e | Throw _ => uninit end)
               parameters i ord0 / sqrt (if (i < 3)%N then 1 else 1 / 2).
Proof.
  have h1 : Rlt 0 1 by lra.
  have h2 : Rlt 0 (1 / 2) by lra.
  split; first exact: h1.
  split; first exact: h2.
  split; first reflexivity.
  exact: (variance_residual h1 h2 (erefl _)).
Defined.

Lemma make_variances_negative_witness :
  (Rlt (-1) 0 \/ Rlt 1 0) /\
  exists e, make_variances (-1) 1 ex_T_AB = Ret e /\
    Eigen.info (Eigen.compute (information_ e)) = Eigen.NumericalIssue /\
    squareRootInformation_ e = (Eigen.matrixL (Eigen.compute (information_ e)))^T.
Proof.
  have h : Rlt (-1) 0 \/ Rlt 1 0 by left; lra.
  split; first exact: h.
  exact: (make_variances_negative ex_T_AB h).
Defined.

(** A rotation by pi about z, with a translation, and the poses it maps the
    identity poses of ex_parameters to. *)
Definition ex_T : Transformation := Transformation_ (Vector3d 1 2 3) (Quaterniond 0 0 0 1).
Definition ex_parameters' (b i : nat) : R :=
  match i with 0 => 1 | 1 => 2 | 2 => 3 | 5 => 1 | _ => 0 end.

Lemma normalized_unit q : squaredNorm q = 1 -> normalized q = q.
Proof.
  move=> h; rewrite /normalized h.
  destruct (Rlt_dec _ _) as [h0 | hx]; last by [].
  rewrite sqrt_1 invr1; apply: quat_eq; rewrite /qscale /= ?mulr1; ring_R; ring.
Qed.

Lemma ex_gauge b : pose_of ex_parameters' b = tmul ex_T (pose_of ex_parameters b).
Proof.
  rewrite /pose_of /ex_parameters' /ex_parameters /= !normalized_unit;
    try by rewrite /squaredNorm /=; ring_R; ring.
  rewrite /tmul /=; congr Transformation_.
  - apply/matrixP => i j; rewrite !mxE big_ord_recr !big_ord_recr big_ord0 /= !mxE.
    by case: i => [[|[|[|i]]] Hi] //=; ring_R; ring.
  - rewrite /Quaterniond /qmul /=; congr Quaternion_; ring_R; ring.
Qed.

Lemma error_gauge_invariant_witness :
  squaredNorm (q ex_T) = 1 /\
  Rlt 0 (squaredNorm (Quaterniond (ex_parameters 0%N 6%N) (ex_parameters 0%N 3%N)
                                  (ex_parameters 0%N 4%N) (ex_parameters 0%N 5%N))) /\
  pose_of ex_parameters' 0 = tmul ex_T (pose_of ex_parameters 0) /\
  pose_of ex_parameters' 1 = tmul ex_T (pose_of ex_parameters 1) /\
  (error_of ex_error ex_parameters' = error_of ex_error ex_parameters /\
   Evaluate ex_error ex_parameters' = Evaluate ex_error ex_parameters).
Proof.
  have hT : squaredNorm (q ex_T) = 1 by rewrite /squaredNorm /=; ring_R; ring.
  have hA : Rlt 0 (squaredNorm (Quaterniond (ex_parameters 0%N 6%N) (ex_parameters 0%N 3%N)
                                  (ex_parameters 0%N 4%N) (ex_parameters 0%N 5%N))).
    rewrite /squaredNorm /ex_parameters /=; to_R; lra.
  split; first exact: hT.
  split; first exact: hA.
  split; first exact: ex_gauge.
  split; first exact: ex_gauge.
  exact: (error_gauge_invariant ex_error hT hA (ex_gauge 0) (ex_gauge 1)).
Defined.

Lemma adapter_sizes_witness :
  LoopclosureNoncentralAbsoluteAdapter ex_points ex_matches ex_sys ex_frame2 = Ret ex_adapter2 /\
  [/\ size (camOffsets_ ex_adapter2) = numCameras ex_sys /\
      size (camRotations_ ex_adapter2) = numCameras ex_sys,
      size (bearingVectors_ ex_adapter2) = getNumberCorrespondences ex_adapter2 /\
      size (sigmaAngles_ ex_adapter2) = getNumberCorrespondences ex_adapter2,
      size (camIndices_ ex_adapter2) = getNumberCorrespondences ex_adapter2 /\
      size (keypointIndices_ ex_adapter2) = getNumberCorrespondences ex_adapter2 &
      forall i, (i < getNumberCorrespondences ex_adapter2)%N ->
        (nth 0%N (camIndices_ ex_adapter2) i < size (camOffsets_ ex_adapter2))%N /\
        (nth 0%N (keypointIndices_ ex_adapter2) i <
           numKeypoints ex_frame2 (nth 0%N (camIndices_ ex_adapter2) i))%N].
Proof. split; [exact: ex_ctor2 | exact: (adapter_sizes ex_ctor2)]. Defined.

Lemma error_quaternion_scale_witness :
  Rlt 0 2 /\
  error_of ex_error (scale_quaternion ex_parameters 0 2) = error_of ex_error ex_parameters /\
  Evaluate ex_error (scale_quaternion ex_parameters 0 2) = Evaluate ex_error ex_parameters.
Proof.
  have h : Rlt 0 2 by lra.
  split; first exact: h.
  exact: (error_quaternion_scale ex_error ex_parameters 0 h).
Defined.

End ExtraWitnesses.
